(** * Tourist scheduling system: the matching engine and its coordination tools

    Shallow embedding of [src/agents/tools.py]: the scheduler state, the two
    registration tools, [run_scheduling] and the greedy [_build_schedule].

    Conventions of the embedding.
    - A Python [datetime] is an instant, counted in microseconds since
      [datetime.min]; comparison, [max] and [min] are those of [Z].
    - A Python [float] (budget, hourly rate, cost) is a rational of [Q]; the
      code only compares amounts with [<] and multiplies a rate by a number of
      hours, and rounding, infinities and NaN are not represented.
      All datetimes are naive, as [datetime.fromisoformat] gives them for the
      timestamps of the docstrings, so that any two compare.
    - [str] is [string], a Python list is a [list], the local dictionary
      [guide_capacity] is a [gmap string Z].
    - The label lists of the registration tools are lists of strings, as
      annotated. For a caller that passes a string in their place the tools
      first decode it (lines 176-185 and 276-286); what is decoded need not
      be a list, and what becomes of it is decided by the constructors of
      the models. That path is not modelled, and every property of a
      registration is one of a call with a list of labels.
    - The dashboard notifications ([send_to_ui_agent],
      [send_communication_event]) swallow their own failures and never touch
      the scheduler state; they are left out. *)

From stdpp Require Import base gmap strings list sorting.
From Stdlib Require Import QArith Sorted.

Local Open Scope Z_scope.

(** ** Data model *)

Definition datetime := Z.

(** [datetime.max] is 9999-12-31T23:59:59.999999, the last microsecond of day
    number 3652059. *)
Definition datetime_max : datetime := 3652059 * 86400 * 1000000 - 1.

(** Modelled from the spec: [src/core/models.py] is not among the sources.
    The records below are the models [tools.py] imports from it, with the
    fields the spec's data model lists and the constructor arguments the tools
    pass; field types follow the annotations of the tools' parameters.
    A constructor stores the arguments it is given. The data model does not
    require [start < end] of a window at construction. It gives a budget and
    an hourly rate as non-negative and a group size as positive; whether the
    constructors refuse a value outside these ranges cannot be read off the
    sources, and the records are built here for such a value as for any
    other. *)
Record Window := mkWindow {
  start : datetime;
  end_ : datetime
}.

Record TouristRequest := mkTouristRequest {
  tourist_id : string;
  availability : list Window;
  preferences : list string;
  budget : Q
}.

Record GuideOffer := mkGuideOffer {
  guide_id : string;
  categories : list string;
  available_window : Window;
  hourly_rate : Q;
  max_group_size : Z
}.

Record Assignment := mkAssignment {
  asg_tourist_id : string;
  asg_guide_id : string;
  time_window : Window;
  asg_categories : list string;
  total_cost : Q
}.

Record ScheduleProposal := mkScheduleProposal {
  prop_tourist_id : string;
  prop_assignments : list Assignment;
  prop_status : string
}.

Record SchedulerState := mkSchedulerState {
  tourist_requests : list TouristRequest;
  guide_offers : list GuideOffer;
  assignments : list Assignment
}.

(** ** Amounts *)

(** [a < b] on amounts, as a boolean. *)
Definition Qlt_bool (a b : Q) : bool := negb (Qle_bool b a).

(** ** Python's [sorted] with a key

    [sorted] is a stable sort: the result is the unique key-ordered
    rearrangement that keeps elements of equal key in their input order.
    Insertion from the right, stepping over strictly smaller keys only,
    computes it. *)
Section Sorted.
Context {A : Type} (key : A → Z).

Fixpoint insert_by_key (x : A) (l : list A) : list A :=
  match l with
  | [] => [x]
  | y :: l' =>
      if key y <? key x then y :: insert_by_key x l' else x :: y :: l'
  end.

Fixpoint sorted (l : list A) : list A :=
  match l with
  | [] => []
  | x :: l' => insert_by_key x (sorted l')
  end.

(** The order the result is sorted by. *)
Definition key_le (a b : A) : Prop := key a ≤ key b.
End Sorted.

(** ** The matching engine: [_build_schedule] *)

(** [{g.guide_id: g.max_group_size for g in guide_offers}]: a later offer
    with the same key overwrites an earlier one. *)
Definition guide_capacity_of (guide_offers : list GuideOffer) : gmap string Z :=
  foldl (λ m g, <[guide_id g := max_group_size g]> m) ∅ guide_offers.

(** [key=lambda t: t.availability[0].start if t.availability else datetime.max] *)
Definition first_start (t : TouristRequest) : datetime :=
  match availability t with
  | w :: _ => start w
  | [] => datetime_max
  end.

(** The loop over [tourist.availability]: the first window whose
    intersection with the guide's window has [overlap_start < overlap_end]. *)
Fixpoint find_overlap (tourist_windows : list Window) (guide_window : Window)
  : option Window :=
  match tourist_windows with
  | [] => None
  | tourist_window :: rest =>
      let overlap_start := Z.max (start tourist_window) (start guide_window) in
      let overlap_end := Z.min (end_ tourist_window) (end_ guide_window) in
      if overlap_start <? overlap_end
      then Some (mkWindow overlap_start overlap_end)
      else find_overlap rest guide_window
  end.

(** [sum(1 for cat in tourist.preferences if cat in guide.categories)] *)
Definition preference_score (tourist : TouristRequest) (guide : GuideOffer) : Z :=
  Z.of_nat (length (filter (λ cat, cat ∈ categories guide) (preferences tourist))).

(** The three loop variables of the scan over the guides. *)
Record Best := mkBest {
  best_guide : option GuideOffer;
  best_overlap : option Window;
  best_score : Z
}.

Definition no_best : Best := mkBest None None (-1).

(** One iteration of [for guide in guide_offers]. The dictionary is read with
    the total lookup [!!!]: the key is always present, since the dictionary
    was built from the list being scanned and keeps its keys
    ([guide_capacity_lookup_defined] below). *)
Definition scan_guide (guide_capacity : gmap string Z) (tourist : TouristRequest)
    (b : Best) (guide : GuideOffer) : Best :=
  if guide_capacity !!! guide_id guide <=? 0 then b
  else if Qlt_bool (budget tourist) (hourly_rate guide) then b
  else match find_overlap (availability tourist) (available_window guide) with
       | None => b
       | Some overlap_window =>
           let score := preference_score tourist guide in
           if best_score b <? score
           then mkBest (Some guide) (Some overlap_window) score
           else b
       end.

Definition select_guide (guide_capacity : gmap string Z)
    (tourist : TouristRequest) (guide_offers : list GuideOffer) : Best :=
  foldl (scan_guide guide_capacity tourist) no_best guide_offers.

(** [(best_overlap.end - best_overlap.start).total_seconds() / 3600] *)
Definition duration_hours (w : Window) : Q :=
  (inject_Z (end_ w - start w) / inject_Z 1000000 / inject_Z 3600)%Q.

(** The [Assignment(...)] built for a tourist, the guide kept for it and the
    overlap found with that guide. *)
Definition new_assignment (tourist : TouristRequest) (best_guide : GuideOffer)
    (best_overlap : Window) : Assignment :=
  mkAssignment (tourist_id tourist) (guide_id best_guide) best_overlap
    (categories best_guide)
    (hourly_rate best_guide * duration_hours best_overlap)%Q.

(** One iteration of [for tourist in sorted_tourists], on the pair of the
    assignment list and the capacity dictionary. *)
Definition schedule_tourist (guide_offers : list GuideOffer)
    (st : list Assignment * gmap string Z) (tourist : TouristRequest)
  : list Assignment * gmap string Z :=
  let '(assignments, guide_capacity) := st in
  match availability tourist with
  | [] => st
  | _ :: _ =>
      let b := select_guide guide_capacity tourist guide_offers in
      match best_guide b, best_overlap b with
      | Some g, Some ov =>
          let assignment := new_assignment tourist g ov in
          (assignments ++ [assignment],
           <[guide_id g := guide_capacity !!! guide_id g - 1]> guide_capacity)
      | _, _ => st
      end
  end.

Definition _build_schedule (tourist_requests : list TouristRequest)
    (guide_offers : list GuideOffer) : list Assignment :=
  let guide_capacity := guide_capacity_of guide_offers in
  let sorted_tourists := sorted first_start tourist_requests in
  fst (foldl (schedule_tourist guide_offers) ([], guide_capacity) sorted_tourists).

(** ** Exceptions

    A computation that may raise carries the exception's message; the tools
    catch every [Exception] at their boundary and turn it into an error
    reply. *)
Inductive result (A : Type) : Type :=
| Ok (a : A)
| Raise (message : string).
Arguments Ok {A} a.
Arguments Raise {A} message.

#[export] Instance result_bind : MBind result := λ A B k r,
  match r with
  | Ok a => k a
  | Raise e => Raise e
  end.

(** ** Equality of records, as [list.remove] tests it

    The models compare field by field; amounts compare by value. *)
Definition Window_eqb (a b : Window) : bool :=
  (start a =? start b) && (end_ a =? end_ b).

Definition TouristRequest_eqb (a b : TouristRequest) : bool :=
  String.eqb (tourist_id a) (tourist_id b)
  && bool_decide (Forall2 (λ x y, Window_eqb x y = true) (availability a) (availability b))
  && bool_decide (preferences a = preferences b)
  && Qeq_bool (budget a) (budget b).

Definition GuideOffer_eqb (a b : GuideOffer) : bool :=
  String.eqb (guide_id a) (guide_id b)
  && bool_decide (categories a = categories b)
  && Window_eqb (available_window a) (available_window b)
  && Qeq_bool (hourly_rate a) (hourly_rate b)
  && (max_group_size a =? max_group_size b).

(** [l.remove(x)]: drops the first item equal to [x], and raises
    [ValueError] when there is none. *)
Fixpoint list_remove {A} (eqb : A → A → bool) (x : A) (l : list A)
  : result (list A) :=
  match l with
  | [] => Raise "list.remove(x): x not in list"
  | y :: l' =>
      if eqb y x then Ok l'
      else r ← list_remove eqb x l'; Ok (y :: r)
  end.

(** ** Replies of the tools

    A reply is the dictionary a tool returns, one constructor per [status]
    tag, with the entries the properties below speak about (the
    human-readable [message] of a successful reply is left out). *)
Inductive Reply : Type :=
| registered_tourist (id : string) (queue_position : nat)
| registered_guide (id : string) (total_guides : nat)
| no_tourists (assigned : list Assignment)
| no_guides (assigned : list Assignment)
| completed (num_assignments : nat) (assigned : list Assignment)
            (proposals : list ScheduleProposal)
| cleared
| error (message : string).

Definition status (r : Reply) : string :=
  match r with
  | registered_tourist _ _ | registered_guide _ _ => "registered"
  | no_tourists _ => "no_tourists"
  | no_guides _ => "no_guides"
  | completed _ _ _ => "completed"
  | cleared => "cleared"
  | error _ => "error"
  end.

(** The ["assignments"] entry of a reply, when it has one. *)
Definition reply_assignments (r : Reply) : option (list Assignment) :=
  match r with
  | no_tourists l | no_guides l | completed _ l _ => Some l
  | _ => None
  end.

(** ** The coordination tools, as state transformers *)

(** [SchedulerState()]: the three collections start empty. *)
Definition initial_state : SchedulerState := mkSchedulerState [] [] [].

Section Tools.
(** [datetime.fromisoformat], which raises [ValueError] on a string it
    cannot parse. *)
Variable fromisoformat : string → result datetime.

(** Lines 187-244, for [preferences] a list: the two timestamps are parsed,
    the record is built, the record found under the identity is removed and
    the new one appended. Anything raised on the way is caught and answered
    with an error reply, the state being as it was. *)
Definition register_tourist_request
    (id availability_start availability_end : string)
    (prefs : list string) (amount : Q) (s : SchedulerState)
  : Reply * SchedulerState :=
  let attempt :=
    ws ← fromisoformat availability_start;
    we ← fromisoformat availability_end;
    let window := mkWindow ws we in
    let request := mkTouristRequest id [window] prefs amount in
    let existing :=
      List.find (λ t, String.eqb (tourist_id t) id) (tourist_requests s) in
    kept ← match existing with
           | Some e => list_remove TouristRequest_eqb e (tourist_requests s)
           | None => Ok (tourist_requests s)
           end;
    Ok (kept ++ [request]) in
  match attempt with
  | Ok requests =>
      (registered_tourist id (length requests),
       mkSchedulerState requests (guide_offers s) (assignments s))
  | Raise e => (error e, s)
  end.

(** Lines 288-346, for [categories] a list. *)
Definition register_guide_offer
    (id : string) (cats : list string)
    (available_start available_end : string)
    (rate : Q) (group_size : Z) (s : SchedulerState)
  : Reply * SchedulerState :=
  let attempt :=
    ws ← fromisoformat available_start;
    we ← fromisoformat available_end;
    let window := mkWindow ws we in
    let offer := mkGuideOffer id cats window rate group_size in
    let existing :=
      List.find (λ g, String.eqb (guide_id g) id) (guide_offers s) in
    kept ← match existing with
           | Some e => list_remove GuideOffer_eqb e (guide_offers s)
           | None => Ok (guide_offers s)
           end;
    Ok (kept ++ [offer]) in
  match attempt with
  | Ok offers =>
      (registered_guide id (length offers),
       mkSchedulerState (tourist_requests s) offers (assignments s))
  | Raise e => (error e, s)
  end.
End Tools.

Definition proposal_of (a : Assignment) : ScheduleProposal :=
  mkScheduleProposal (asg_tourist_id a) [a] "proposed".

(** Lines 361-433. The body of the [try] raises when it compares a naive
    timestamp with an aware one; between the naive timestamps of this
    embedding every comparison has a result, and the reply of the [except]
    clause, of status [error], is not among the outcomes below. *)
Definition run_scheduling (s : SchedulerState) : Reply * SchedulerState :=
  let tourists := tourist_requests s in
  let guides := guide_offers s in
  match tourists with
  | [] => (no_tourists [], s)
  | _ :: _ =>
      match guides with
      | [] => (no_guides [], s)
      | _ :: _ =>
          let built := _build_schedule tourists guides in
          (completed (length built) built (map proposal_of built),
           mkSchedulerState tourists guides built)
      end
  end.

Definition clear_scheduler_state (s : SchedulerState) : Reply * SchedulerState :=
  (cleared, initial_state).

(** ** [get_schedule_status]

    The reply of the status tool: its counts, the two percentages and the two
    differences. The tool reads the state and leaves it as it is. *)
Record StatusReply := mkStatusReply {
  total_tourists : Z;
  total_guides : Z;
  total_assignments : Z;
  tourist_satisfaction_pct : Q;
  guide_utilization_pct : Q;
  pending_tourists : Z;
  available_guides : Z
}.

Section Status.
(** [round(x, 1)]. *)
Variable round_1 : Q → Q.

Definition get_schedule_status (state : SchedulerState) : StatusReply :=
  let total_tourists := Z.of_nat (length (tourist_requests state)) in
  let total_guides := Z.of_nat (length (guide_offers state)) in
  let total_assignments := Z.of_nat (length (assignments state)) in
  let assigned_tourists : gset string :=
    list_to_set (map asg_tourist_id (assignments state)) in
  let assigned_guides : gset string :=
    list_to_set (map asg_guide_id (assignments state)) in
  let tourist_satisfaction :=
    if 0 <? total_tourists
    then (inject_Z (Z.of_nat (size assigned_tourists)) / inject_Z total_tourists * 100)%Q
    else 0%Q in
  let guide_utilization :=
    if 0 <? total_guides
    then (inject_Z (Z.of_nat (size assigned_guides)) / inject_Z total_guides * 100)%Q
    else 0%Q in
  mkStatusReply total_tourists total_guides total_assignments
    (round_1 tourist_satisfaction) (round_1 guide_utilization)
    (total_tourists - Z.of_nat (size assigned_tourists))
    (total_guides - Z.of_nat (size assigned_guides)).
End Status.

(** The states the process can be in: the initial one and those a tool call
    leads to. *)
Inductive reachable (fromisoformat : string → result datetime)
  : SchedulerState → Prop :=
| reachable_initial : reachable fromisoformat initial_state
| reachable_tourist s id ws we prefs amount :
    reachable fromisoformat s →
    reachable fromisoformat
      (snd (register_tourist_request fromisoformat id ws we prefs amount s))
| reachable_guide s id cats ws we rate size :
    reachable fromisoformat s →
    reachable fromisoformat
      (snd (register_guide_offer fromisoformat id cats ws we rate size s))
| reachable_run s :
    reachable fromisoformat s → reachable fromisoformat (snd (run_scheduling s))
| reachable_clear s :
    reachable fromisoformat s →
    reachable fromisoformat (snd (clear_scheduler_state s)).

(** ** [core/model_factory.py]: the model an agent talks to

    [os.environ] is a map from names to values. [str.lower] and [str.upper]
    change the ASCII letters; the strings they are applied to here are the
    provider name, which is compared with ASCII names only, and the agent
    type, for which the agents pass ["scheduler"], ["guide"] and
    ["tourist"]. The log lines are left out. *)

(** [os.getenv(name)] and [os.getenv(name, default)]. *)
Definition getenv (env : gmap string string) (name : string) : option string :=
  env !! name.

Definition getenv_or (env : gmap string string) (name dflt : string) : string :=
  default dflt (env !! name).

(** [v if v else dflt], for a value that may be [None]: an empty string counts
    as missing. *)
Definition or_else (v : option string) (dflt : string) : string :=
  match v with
  | Some (String c rest) => String c rest
  | _ => dflt
  end.

(** [a or b] on two optional strings. *)
Definition or_option (a b : option string) : option string :=
  match a with
  | Some (String c rest) => a
  | _ => b
  end.

Definition lower_char (c : Ascii.ascii) : Ascii.ascii :=
  let n := Ascii.N_of_ascii c in
  if ((65 <=? n) && (n <=? 90))%N then Ascii.ascii_of_N (n + 32) else c.

Definition upper_char (c : Ascii.ascii) : Ascii.ascii :=
  let n := Ascii.N_of_ascii c in
  if ((97 <=? n) && (n <=? 122))%N then Ascii.ascii_of_N (n - 32) else c.

Fixpoint lower (s : string) : string :=
  match s with
  | EmptyString => EmptyString
  | String c rest => String (lower_char c) (lower rest)
  end.

Fixpoint upper (s : string) : string :=
  match s with
  | EmptyString => EmptyString
  | String c rest => String (upper_char c) (upper rest)
  end.

(** [s[n:]] *)
Fixpoint drop_chars (n : nat) (s : string) : string :=
  match n, s with
  | O, _ => s
  | S n', String _ rest => drop_chars n' rest
  | S _, EmptyString => EmptyString
  end.

(** [s.replace(old, new, 1)]: the leftmost occurrence of [old] is replaced. *)
Fixpoint replace_first (old new s : string) : string :=
  if String.prefix old s then new +:+ drop_chars (String.length old) s
  else match s with
       | EmptyString => EmptyString
       | String c rest => String c (replace_first old new rest)
       end.

(** A keyword argument of [LiteLlm(...)]: not passed, or passed with a value
    that may be [None]. *)
Inductive kwarg : Type :=
| Absent
| Given (v : option string).

Record LiteLlm := mkLiteLlm {
  model : string;
  api_key : kwarg;
  api_base : kwarg;
  api_version : kwarg
}.

(** The name given to an Ollama model, lines 58-62. *)
Definition ollama_model_name (model_name : string) : string :=
  if negb (String.prefix "ollama_chat/" model_name)
     && negb (String.prefix "ollama/" model_name)
  then "ollama_chat/" +:+ model_name
  else if String.prefix "ollama/" model_name
  then replace_first "ollama/" "ollama_chat/" model_name
  else model_name.

Definition create_llm_model (env : gmap string string) (agent_type : string)
  : LiteLlm :=
  let provider := lower (getenv_or env "MODEL_PROVIDER" "azure") in
  let env_var_prefix := upper agent_type in
  let model_name :=
    or_option (getenv env (env_var_prefix +:+ "_MODEL")) (getenv env "MODEL_NAME") in
  if bool_decide (provider ∈ ["google"; "gemini"]) then
    mkLiteLlm (or_else model_name "gemini/gemini-3-pro-preview")
      (Given (getenv env "GOOGLE_GEMINI_API_KEY")) Absent Absent
  else if bool_decide (provider = "ollama") then
    let model_name := or_else model_name (getenv_or env "OLLAMA_MODEL" "qwen3:latest") in
    mkLiteLlm (ollama_model_name model_name) Absent
      (Given (Some (getenv_or env "OLLAMA_HOST" "http://host.docker.internal:11434")))
      Absent
  else if bool_decide (provider ∈ ["azure"; "openai"]) then
    let deployment_name := getenv_or env "AZURE_OPENAI_DEPLOYMENT_NAME" "gpt-4o" in
    mkLiteLlm (or_else model_name ("azure/" +:+ deployment_name))
      (Given (getenv env "AZURE_OPENAI_API_KEY"))
      (Given (or_option (getenv env "AZURE_OPENAI_ENDPOINT") (getenv env "AZURE_API_BASE")))
      (Given (or_option (getenv env "AZURE_OPENAI_API_VERSION")
                        (Some (getenv_or env "AZURE_API_VERSION" "2024-02-01"))))
  else
    mkLiteLlm (or_else model_name "gpt-3.5-turbo") Absent Absent Absent.

(** ** Vocabulary of the properties *)

(** Number of assignments whose guide is [gid]. *)
Definition guide_load (gid : string) (l : list Assignment) : Z :=
  Z.of_nat (length (filter (λ a, asg_guide_id a = gid) l)).

(** The three tests a guide must pass for a tourist, given the remaining
    capacities. *)
Definition eligible (guide_capacity : gmap string Z) (tourist : TouristRequest)
    (guide : GuideOffer) : bool :=
  negb (guide_capacity !!! guide_id guide <=? 0)
  && negb (Qlt_bool (budget tourist) (hourly_rate guide))
  && bool_decide (is_Some (find_overlap (availability tourist) (available_window guide))).

(** Where an assignment comes from: a tourist and a guide of the two input
    lists, with the overlap the scan found for them and a rate within the
    tourist's budget. *)
Definition produced_from (tourists : list TouristRequest)
    (guides : list GuideOffer) (a : Assignment) : Prop :=
  ∃ t g ov,
    t ∈ tourists ∧ g ∈ guides ∧ a = new_assignment t g ov
    ∧ find_overlap (availability t) (available_window g) = Some ov
    ∧ (hourly_rate g <= budget t)%Q.



(** A tourist with at least one availability window. *)
Definition has_availability (t : TouristRequest) : bool :=
  match availability t with
  | [] => false
  | _ :: _ => true
  end.

(** The order of service in the words of the specification: the first
    availability window of [t] starts no later than that of [t']. *)
Definition first_window_no_later (t t' : TouristRequest) : Prop :=
  ∀ w ws w' ws',
    availability t = w :: ws → availability t' = w' :: ws' → start w ≤ start w'.

(** The first availability window of [t] starts at [k]. *)
Definition first_window_starts_at (k : datetime) (t : TouristRequest) : Prop :=
  start <$> head (availability t) = Some k.

#[export] Instance first_window_starts_at_dec k t :
  Decision (first_window_starts_at k t).
Proof. unfold first_window_starts_at. apply _. Defined.

(** The list without its first item satisfying [p]: what the lookup of
    [existing] followed by [remove(existing)] amounts to. *)
Fixpoint remove_first_with {A} (p : A → bool) (l : list A) : list A :=
  match l with
  | [] => []
  | x :: l' => if p x then l' else x :: remove_first_with p l'
  end.

(** Every identity occurs once in each registry. *)
Definition unique_identities (s : SchedulerState) : Prop :=
  NoDup (map tourist_id (tourist_requests s))
  ∧ NoDup (map guide_id (guide_offers s)).

(** The ledger speaks of registered identities only, and of no tourist
    twice. *)
Definition ledger_registered (s : SchedulerState) : Prop :=
  NoDup (map asg_tourist_id (assignments s))
  ∧ ∀ a, a ∈ assignments s →
         asg_tourist_id a ∈ map tourist_id (tourist_requests s)
         ∧ asg_guide_id a ∈ map guide_id (guide_offers s).

(** [inner] lies within [outer]. *)
Definition within (inner outer : Window) : Prop :=
  start outer ≤ start inner ∧ end_ inner ≤ end_ outer.

(** ** Worked scenarios *)

(** [h] o'clock on 2025-06-01, which is day 739403 of the calendar. *)
Definition hour (h : Z) : datetime := ((739403 - 1) * 24 + h) * 3600 * 1000000.

(** [datetime.fromisoformat] on the timestamps of the examples; any other
    string stands for one that does not parse. *)
Definition clock (s : string) : result datetime :=
  if String.eqb s "2025-06-01T08:00:00" then Ok (hour 8)
  else if String.eqb s "2025-06-01T09:00:00" then Ok (hour 9)
  else if String.eqb s "2025-06-01T10:00:00" then Ok (hour 10)
  else if String.eqb s "2025-06-01T12:00:00" then Ok (hour 12)
  else if String.eqb s "2025-06-01T14:00:00" then Ok (hour 14)
  else if String.eqb s "2025-06-01T17:00:00" then Ok (hour 17)
  else Raise ("Invalid isoformat string: '" +:+ s +:+ "'").

Definition t1 : TouristRequest :=
  mkTouristRequest "t1" [mkWindow (hour 9) (hour 17)] ["culture"; "history"] 100.
Definition g1 : GuideOffer :=
  mkGuideOffer "g1" ["culture"; "history"; "food"] (mkWindow (hour 10) (hour 14)) 50 5.

(** A second tourist, free earlier than [t1], and a guide for one person. *)
Definition t2 : TouristRequest :=
  mkTouristRequest "t2" [mkWindow (hour 8) (hour 12)] ["food"] 80.
Definition g2 : GuideOffer :=
  mkGuideOffer "g2" ["food"] (mkWindow (hour 10) (hour 14)) 50 1.

(** An environment that asks for an Ollama model, the provider written with
    a capital. *)
Definition ollama_env : gmap string string :=
  {[ "MODEL_PROVIDER" := "Ollama"; "GUIDE_MODEL" := "ollama/llama3" ]}.

(** An environment with a model for the scheduler and one for everybody. *)
Definition gemini_env : gmap string string :=
  {[ "MODEL_PROVIDER" := "gemini"; "MODEL_NAME" := "gemini/flash";
     "SCHEDULER_MODEL" := "gemini/pro"; "GUIDE_MODEL" := "" ]}.

(** The state after [t1] has registered through the tool. *)
Definition one_tourist : SchedulerState :=
  (register_tourist_request clock "t1" "2025-06-01T09:00:00"
     "2025-06-01T17:00:00" ["culture"; "history"] 100 initial_state).2.

(** * Properties *)

(** ** The stable sort *)
Section SortedFacts.
Context {A : Type} (key : A → Z).

Lemma insert_by_key_perm x l : insert_by_key key x l ≡ₚ x :: l.
Proof.
  induction l as [|y l IH]; simpl; [done|].
  destruct (key y <? key x); [|done].
  rewrite IH. apply Permutation_swap.
Qed.

Lemma sorted_perm l : sorted key l ≡ₚ l.
Proof.
  induction l as [|x l IH]; simpl; [done|].
  by rewrite insert_by_key_perm, IH.
Qed.

Lemma insert_by_key_sorted x l :
  StronglySorted (key_le key) l → StronglySorted (key_le key) (insert_by_key key x l).
Proof.
  induction 1 as [|y l Hl IH Hy]; simpl.
  - repeat constructor.
  - destruct (Z.ltb_spec (key y) (key x)) as [Hlt|Hge].
    + constructor; [done|].
      rewrite insert_by_key_perm. constructor; [unfold key_le; lia | done].
    + constructor; [by constructor|].
      constructor; [done|].
      eapply Forall_impl; [exact Hy|]. unfold key_le. intros; simpl in *; lia.
Qed.

Lemma sorted_sorted l : StronglySorted (key_le key) (sorted key l).
Proof.
  induction l; simpl; [constructor | by apply insert_by_key_sorted].
Qed.

(** Stability: the elements of any given key come out in input order. *)
Lemma insert_by_key_filter (P : A → Prop) `{!∀ a, Decision (P a)} x l :
  (∀ a b, P a → P b → key a = key b) →
  filter P (insert_by_key key x l) = filter P (x :: l).
Proof.
  intros HP. induction l as [|y l IH]; simpl; [done|].
  destruct (Z.ltb_spec (key y) (key x)) as [Hlt|Hge]; [|done].
  rewrite !filter_cons in *.
  destruct (decide (P y)) as [Hy|Hy], (decide (P x)) as [Hx|Hx];
    rewrite ?IH; try done.
  specialize (HP _ _ Hx Hy). lia.
Qed.

Lemma sorted_stable k l :
  filter (λ a, key a = k) (sorted key l) = filter (λ a, key a = k) l.
Proof.
  induction l as [|x l IH]; simpl; [done|].
  rewrite insert_by_key_filter by congruence.
  by rewrite !filter_cons, IH.
Qed.

(** Order and stability leave no choice: a key-ordered list with the same
elements per key, in the same order, is the sorted list. Any stable sort,
Python's among them, therefore returns [sorted key l]. *)
Lemma stable_sorted_unique l1 : ∀ l2,
  StronglySorted (key_le key) l1 → StronglySorted (key_le key) l2 →
  (∀ k, filter (λ a, key a = k) l1 = filter (λ a, key a = k) l2) →
  l1 = l2.
Proof.
  assert (Hnil : ∀ l, (∀ k, filter (λ a, key a = k) l = []) → l = []).
  { intros [|y l] H; [done|]. specialize (H (key y)).
    rewrite filter_cons in H. by destruct (decide (key y = key y)). }
  assert (Hhead : ∀ x l y l',
            StronglySorted (key_le key) (x :: l) →
            filter (λ a, key a = key y) (x :: l)
              = filter (λ a, key a = key y) (y :: l') →
            key x ≤ key y).
  { intros x l y l' Hs Hf.
    assert (y ∈ filter (λ a, key a = key y) (x :: l)) as Hy.
    { rewrite Hf, filter_cons. destruct (decide (key y = key y)); [by left|done]. }
    apply list_elem_of_filter in Hy as [_ Hy].
    apply StronglySorted_inv in Hs as [_ Hall]. rewrite Forall_forall in Hall.
    apply elem_of_cons in Hy as [->|Hy]; [lia | by apply Hall]. }
  induction l1 as [|x l1 IH]; intros l2 Hs1 Hs2 Hf.
  { symmetry. apply Hnil. intros k. by rewrite <- Hf. }
  destruct l2 as [|y l2].
  { apply Hnil. intros k. by rewrite Hf. }
  assert (key x = key y) as Hk.
  { pose proof (Hhead x l1 y l2 Hs1 (Hf (key y))).
    pose proof (Hhead y l2 x l1 Hs2 (eq_sym (Hf (key x)))). lia. }
  pose proof (Hf (key x)) as Hx. rewrite !filter_cons in Hx.
  destruct (decide (key x = key x)); [|done].
  destruct (decide (key y = key x)); [|congruence].
  injection Hx as -> Hx. f_equal.
  apply StronglySorted_inv in Hs1 as [Hs1 _].
  apply StronglySorted_inv in Hs2 as [Hs2 _].
  apply IH; [done..|]. intros k.
  specialize (Hf k). rewrite !filter_cons in Hf.
  destruct (decide (key y = k)); [by injection Hf | done].
Qed.
End SortedFacts.

(** ** Amounts and overlaps *)

Lemma Qlt_bool_true a b : Qlt_bool a b = true ↔ (a < b)%Q.
Proof.
  unfold Qlt_bool. rewrite negb_true_iff.
  split.
  - intros H. apply Qnot_le_lt. intros Hle. apply Qle_bool_iff in Hle. congruence.
  - intros H. destruct (Qle_bool b a) eqn:E; [|done].
    apply Qle_bool_iff in E. by apply Qlt_not_le in H.
Qed.

Lemma Qlt_bool_false a b : Qlt_bool a b = false ↔ (b <= a)%Q.
Proof.
  unfold Qlt_bool. rewrite negb_false_iff. apply Qle_bool_iff.
Qed.

Lemma find_overlap_Some tourist_windows guide_window ov :
  find_overlap tourist_windows guide_window = Some ov →
  ∃ tw, tw ∈ tourist_windows
        ∧ start ov = Z.max (start tw) (start guide_window)
        ∧ end_ ov = Z.min (end_ tw) (end_ guide_window)
        ∧ start ov < end_ ov.
Proof.
  induction tourist_windows as [|tw rest IH]; simpl; [done|].
  destruct (Z.ltb_spec (Z.max (start tw) (start guide_window))
                       (Z.min (end_ tw) (end_ guide_window))) as [Hlt|Hge].
  - intros [= <-]. exists tw. simpl. split; [left|done].
  - intros H. destruct (IH H) as (tw' & Hin & ?). exists tw'. split; [by right|done].
Qed.

Lemma preference_score_nonneg t g : 0 ≤ preference_score t g.
Proof. unfold preference_score. lia. Qed.



(** ** The scan over the guides *)

Lemma scan_guide_not_eligible cap t b g :
  eligible cap t g = false → scan_guide cap t b g = b.
Proof.
  unfold eligible, scan_guide. intros H.
  destruct (cap !!! guide_id g <=? 0); [done|].
  destruct (Qlt_bool (budget t) (hourly_rate g)); [done|].
  destruct (find_overlap (availability t) (available_window g)); [|done].
  rewrite !andb_false_iff, bool_decide_eq_false in H.
  destruct H as [[H|H]|H]; [done|done|]. destruct H. by eexists.
Qed.

Lemma scan_guide_eligible cap t b g :
  eligible cap t g = true →
  ∃ ov, find_overlap (availability t) (available_window g) = Some ov ∧
        scan_guide cap t b g =
          if best_score b <? preference_score t g
          then mkBest (Some g) (Some ov) (preference_score t g) else b.
Proof.
  unfold eligible, scan_guide. intros H.
  destruct (cap !!! guide_id g <=? 0); [done|].
  destruct (Qlt_bool (budget t) (hourly_rate g)); [done|].
  destruct (find_overlap (availability t) (available_window g)) as [ov|]; [|done].
  by exists ov.
Qed.

Lemma eligible_true cap t g :
  eligible cap t g = true ↔
  0 < cap !!! guide_id g ∧ (hourly_rate g <= budget t)%Q
  ∧ is_Some (find_overlap (availability t) (available_window g)).
Proof.
  unfold eligible. rewrite !andb_true_iff, !negb_true_iff, bool_decide_eq_true.
  rewrite Z.leb_gt, Qlt_bool_false. tauto.
Qed.


(** What the loop variables hold once the guides of [scanned] have been
    looked at: nothing when no guide passed the tests; otherwise the first
    guide, in scan order, whose score no passing guide exceeds. *)
Lemma select_guide_spec cap t scanned :
  let b := select_guide cap t scanned in
  (b = no_best ∧ ∀ g, g ∈ scanned → eligible cap t g = false)
  ∨ (∃ l1 g l2 ov,
        scanned = l1 ++ g :: l2
        ∧ b = mkBest (Some g) (Some ov) (preference_score t g)
        ∧ eligible cap t g = true
        ∧ find_overlap (availability t) (available_window g) = Some ov
        ∧ (∀ g', g' ∈ l1 → eligible cap t g' = true →
                 preference_score t g' < preference_score t g)
        ∧ (∀ g', g' ∈ l2 → eligible cap t g' = true →
                 preference_score t g' ≤ preference_score t g)).
Proof.
  unfold select_guide. induction scanned as [|x scanned IH] using rev_ind; simpl.
  { left. split; [done|]. intros g Hg. by apply elem_of_nil in Hg. }
  rewrite foldl_snoc.
  destruct (eligible cap t x) eqn:Ex.
  - destruct (scan_guide_eligible cap t
               (foldl (scan_guide cap t) no_best scanned) x Ex) as (ov & Hov & ->).
    destruct IH as [[-> Hnone] | (l1 & g & l2 & ov' & -> & -> & Eg & Hg & Hl1 & Hl2)].
    + pose proof (preference_score_nonneg t x).
      simpl. destruct (Z.ltb_spec (-1) (preference_score t x)); [|lia].
      right. exists scanned, x, [], ov. repeat split; try done.
      * intros g' Hg' Eg'. rewrite Hnone in Eg'; done.
      * intros g' Hg'. by apply elem_of_nil in Hg'.
    + simpl. destruct (Z.ltb_spec (preference_score t g) (preference_score t x)).
      * right. exists (l1 ++ g :: l2), x, [], ov. repeat split; try done.
        -- intros g' Hg' Eg'.
           apply elem_of_app in Hg' as [Hg'|Hg'];
             [specialize (Hl1 _ Hg' Eg'); lia|].
           apply elem_of_cons in Hg' as [->|Hg']; [done|].
           specialize (Hl2 _ Hg' Eg'). lia.
        -- intros g' Hg'. by apply elem_of_nil in Hg'.
      * right. exists l1, g, (l2 ++ [x]), ov'. repeat split; try done.
        -- by rewrite <- app_assoc.
        -- intros g' Hg' Eg'.
           apply elem_of_app in Hg' as [Hg'|Hg']; [by apply Hl2|].
           apply list_elem_of_singleton in Hg' as ->. lia.
  - rewrite scan_guide_not_eligible by done.
    destruct IH as [[-> Hnone] | (l1 & g & l2 & ov' & -> & -> & Eg & Hg & Hl1 & Hl2)].
    + left. split; [done|]. intros g Hg.
      apply elem_of_app in Hg as [Hg|Hg]; [by apply Hnone|].
      by apply list_elem_of_singleton in Hg as ->.
    + right. exists l1, g, (l2 ++ [x]), ov'. repeat split; try done.
      * by rewrite <- app_assoc.
      * intros g' Hg' Eg'.
        apply elem_of_app in Hg' as [Hg'|Hg']; [by apply Hl2|].
        apply list_elem_of_singleton in Hg' as ->. congruence.
Qed.

(** ** The loop over the tourists *)

(** The two outcomes of one iteration: the state is left as it was, or one
    assignment is appended for the selected guide, whose counter drops by
    one. *)
Lemma schedule_tourist_cases guides asg cap t :
  schedule_tourist guides (asg, cap) t = (asg, cap)
  ∨ ∃ g ov,
      availability t ≠ [] ∧ g ∈ guides
      ∧ eligible cap t g = true
      ∧ find_overlap (availability t) (available_window g) = Some ov
      ∧ schedule_tourist guides (asg, cap) t =
          (asg ++ [new_assignment t g ov],
           <[guide_id g := cap !!! guide_id g - 1]> cap).
Proof.
  unfold schedule_tourist.
  destruct (availability t) as [|w ws] eqn:Ha; [by left|].
  destruct (select_guide_spec cap t guides)
    as [[-> _] | (l1 & g & l2 & ov & -> & -> & Eg & Hov & _)]; simpl; [by left|].
  right. exists g, ov. rewrite Ha in Hov. repeat split; try done.
  apply elem_of_app. right. by left.
Qed.

Lemma guide_load_snoc gid asg a :
  guide_load gid (asg ++ [a]) =
  guide_load gid asg + (if decide (asg_guide_id a = gid) then 1 else 0).
Proof.
  unfold guide_load. rewrite filter_app, length_app, filter_cons, filter_nil.
  destruct (decide (asg_guide_id a = gid)); simpl; lia.
Qed.

(** The dictionary keeps its keys: the counter that is decremented is one
    that is there. *)
Lemma schedule_tourist_dom guides asg cap t :
  (∀ g, g ∈ guides → guide_id g ∈ dom cap) →
  dom (schedule_tourist guides (asg, cap) t).2 = dom cap.
Proof.
  intros Hkeys.
  destruct (schedule_tourist_cases guides asg cap t)
    as [-> | (g & ov & _ & Hg & _ & _ & ->)]; simpl; [done|].
  rewrite dom_insert_L. apply subseteq_union_1_L, singleton_subseteq_l.
  by apply Hkeys.
Qed.

Lemma foldl_schedule_dom guides ts : ∀ asg cap,
  (∀ g, g ∈ guides → guide_id g ∈ dom cap) →
  dom (foldl (schedule_tourist guides) (asg, cap) ts).2 = dom cap.
Proof.
  induction ts as [|t ts IH]; intros asg cap Hkeys; [done|].
  change (foldl (schedule_tourist guides) (asg, cap) (t :: ts))
    with (foldl (schedule_tourist guides) (schedule_tourist guides (asg, cap) t) ts).
  pose proof (schedule_tourist_dom guides asg cap t Hkeys) as Hstep.
  destruct (schedule_tourist guides (asg, cap) t) as [asg' cap'].
  simpl in Hstep. rewrite IH; [done|]. by rewrite Hstep.
Qed.

(** Assignments to a guide plus what is left of its capacity never grow. *)
Lemma schedule_tourist_load guides asg cap t gid :
  let st := schedule_tourist guides (asg, cap) t in
  guide_load gid (fst st) + Z.max 0 (snd st !!! gid)
  ≤ guide_load gid asg + Z.max 0 (cap !!! gid).
Proof.
  destruct (schedule_tourist_cases guides asg cap t)
    as [-> | (g & ov & _ & _ & Eg & _ & ->)]; simpl; [lia|].
  apply eligible_true in Eg as (Hcap & _ & _).
  rewrite guide_load_snoc. simpl.
  destruct (decide (guide_id g = gid)) as [<-|Hne].
  - rewrite lookup_total_insert_eq. lia.
  - rewrite lookup_total_insert_ne by done. lia.
Qed.

Lemma foldl_schedule_load guides ts : ∀ asg cap gid,
  let st := foldl (schedule_tourist guides) (asg, cap) ts in
  guide_load gid (fst st) + Z.max 0 (snd st !!! gid)
  ≤ guide_load gid asg + Z.max 0 (cap !!! gid).
Proof.
  induction ts as [|t ts IH]; intros asg cap gid; cbv zeta; [simpl; lia|].
  change (foldl (schedule_tourist guides) (asg, cap) (t :: ts))
    with (foldl (schedule_tourist guides) (schedule_tourist guides (asg, cap) t) ts).
  pose proof (schedule_tourist_load guides asg cap t gid) as Hstep.
  destruct (schedule_tourist guides (asg, cap) t) as [asg' cap'].
  specialize (IH asg' cap' gid). cbv zeta in *. cbn [fst snd] in *. lia.
Qed.

Lemma schedule_tourist_produced tourists guides asg cap t :
  t ∈ tourists →
  Forall (produced_from tourists guides) asg →
  Forall (produced_from tourists guides) (fst (schedule_tourist guides (asg, cap) t)).
Proof.
  intros Ht Hasg.
  destruct (schedule_tourist_cases guides asg cap t)
    as [-> | (g & ov & _ & Hg & Eg & Hov & ->)]; simpl; [done|].
  apply Forall_app. split; [done|]. constructor; [|constructor].
  apply eligible_true in Eg as (_ & Hrate & _).
  by exists t, g, ov.
Qed.

Lemma foldl_schedule_produced tourists guides ts : ∀ asg cap,
  (∀ t, t ∈ ts → t ∈ tourists) →
  Forall (produced_from tourists guides) asg →
  Forall (produced_from tourists guides)
         (fst (foldl (schedule_tourist guides) (asg, cap) ts)).
Proof.
  induction ts as [|t ts IH]; intros asg cap Hts Hasg; [done|].
  change (foldl (schedule_tourist guides) (asg, cap) (t :: ts))
    with (foldl (schedule_tourist guides) (schedule_tourist guides (asg, cap) t) ts).
  pose proof (schedule_tourist_produced tourists guides asg cap t) as Hstep.
  destruct (schedule_tourist guides (asg, cap) t) as [asg' cap'].
  apply IH.
  - intros t' Ht'. apply Hts. by right.
  - apply Hstep; [apply Hts; by left | done].
Qed.

Lemma build_schedule_produced tourists guides :
  Forall (produced_from tourists guides) (_build_schedule tourists guides).
Proof.
  unfold _build_schedule. apply foldl_schedule_produced; [|constructor].
  intros t Ht. by rewrite sorted_perm in Ht.
Qed.

(** The assignments follow the order in which the tourists are processed,
    and only tourists with an availability window get one. *)
Lemma foldl_schedule_order guides ts : ∀ asg cap,
  ∃ l, (foldl (schedule_tourist guides) (asg, cap) ts).1 = asg ++ l
       ∧ sublist (map asg_tourist_id l)
                 (map tourist_id (filter (λ t, has_availability t = true) ts)).
Proof.
  induction ts as [|t ts IH]; intros asg cap.
  { exists []. simpl. by rewrite app_nil_r. }
  change (foldl (schedule_tourist guides) (asg, cap) (t :: ts))
    with (foldl (schedule_tourist guides) (schedule_tourist guides (asg, cap) t) ts).
  rewrite filter_cons.
  destruct (schedule_tourist_cases guides asg cap t)
    as [-> | (g & ov & Ha & _ & _ & _ & ->)].
  - destruct (IH asg cap) as (l & -> & Hsub). exists l. split; [done|].
    destruct (decide (has_availability t = true)); [|done].
    simpl. by apply sublist_cons.
  - destruct (IH (asg ++ [new_assignment t g ov])
                 (<[guide_id g := cap !!! guide_id g - 1]> cap)) as (l & -> & Hsub).
    exists (new_assignment t g ov :: l). split; [by rewrite <- app_assoc|].
    destruct (decide (has_availability t = true)) as [_|Hno].
    + simpl. by apply sublist_skip.
    + unfold has_availability in Hno. by destruct (availability t).
Qed.

(** ** The capacity dictionary *)

Lemma guide_capacity_of_snoc guides g :
  guide_capacity_of (guides ++ [g]) =
  <[guide_id g := max_group_size g]> (guide_capacity_of guides).
Proof. unfold guide_capacity_of. by rewrite foldl_snoc. Qed.

Lemma guide_capacity_of_dom guides g :
  g ∈ guides → guide_id g ∈ dom (guide_capacity_of guides).
Proof.
  induction guides as [|x guides IH] using rev_ind; intros Hg.
  { by apply elem_of_nil in Hg. }
  rewrite guide_capacity_of_snoc, dom_insert_L.
  apply elem_of_app in Hg as [Hg|Hg]; [set_solver|].
  apply list_elem_of_singleton in Hg as ->. set_solver.
Qed.

(** No lookup of a run misses: whenever a guide is scanned, at any tourist,
    its identity is a key of the dictionary, so that the source's
    [guide_capacity[guide.guide_id]] never raises. *)
Lemma guide_capacity_lookup_defined guides ts g :
  g ∈ guides →
  is_Some ((foldl (schedule_tourist guides) ([], guide_capacity_of guides) ts).2
           !! guide_id g).
Proof.
  intros Hg. apply elem_of_dom.
  rewrite foldl_schedule_dom; by auto using guide_capacity_of_dom.
Qed.

(** With one offer per identity, the dictionary holds each guide's own
    [max_group_size]. *)
Lemma guide_capacity_of_unique guides g :
  NoDup (map guide_id guides) → g ∈ guides →
  guide_capacity_of guides !! guide_id g = Some (max_group_size g).
Proof.
  induction guides as [|x guides IH] using rev_ind; intros Hnd Hg.
  { by apply elem_of_nil in Hg. }
  rewrite guide_capacity_of_snoc.
  rewrite map_app in Hnd. apply NoDup_app in Hnd as (Hnd & Hdisj & _).
  apply elem_of_app in Hg as [Hg|Hg].
  - rewrite lookup_insert_ne; [by apply IH|].
    intros Heq. apply (Hdisj (guide_id g)).
    + apply list_elem_of_fmap. by exists g.
    + rewrite <- Heq. simpl. by left.
  - apply list_elem_of_singleton in Hg as ->. apply lookup_insert_eq.
Qed.

(** Over a whole run, the assignments to a guide stay within the counter
    the dictionary starts with, or within zero when that is negative. *)
Lemma build_schedule_load tourists guides gid :
  guide_load gid (_build_schedule tourists guides)
  ≤ Z.max 0 (guide_capacity_of guides !!! gid).
Proof.
  unfold _build_schedule.
  pose proof (foldl_schedule_load guides (sorted first_start tourists) []
                (guide_capacity_of guides) gid) as H.
  cbv zeta in H. change (guide_load gid []) with 0 in H. lia.
Qed.

(** A guide without capacity at the start takes no tourist. *)
Lemma no_capacity_no_load tourists guides gid :
  guide_capacity_of guides !!! gid ≤ 0 →
  guide_load gid (_build_schedule tourists guides) = 0.
Proof.
  intros Hc. pose proof (build_schedule_load tourists guides gid) as H.
  assert (0 ≤ guide_load gid (_build_schedule tourists guides))
    by (unfold guide_load; lia).
  lia.
Qed.

(** ** The matching engine *)

(** C1 (capacity invariant). For any lists of tourist requests and guide
    offers, a guide identity registered in the capacity dictionary with the
    group size [c] is the guide of at most [c] of the assignments that
    [_build_schedule] returns. The group size is a count, so [0 ≤ c]; the
    data model makes it positive. *)
Theorem capacity_invariant tourists guides gid c :
  guide_capacity_of guides !! gid = Some c →
  0 ≤ c →
  guide_load gid (_build_schedule tourists guides) ≤ c.
Proof.
  intros Hc Hpos.
  pose proof (build_schedule_load tourists guides gid) as H.
  rewrite (lookup_total_correct _ _ _ Hc) in H.
  lia.
Qed.

Lemma capacity_invariant_witness :
  guide_load "g2" (_build_schedule [t1; t2] [g2]) ≤ 1.
Proof.
  apply (capacity_invariant [t1; t2] [g2] "g2" 1).
  - reflexivity.
  - lia.
Defined.

(** In a registry, where identities are unique, the bound is the guide's own
    [max_group_size]. *)
Corollary capacity_invariant_registry tourists guides g :
  NoDup (map guide_id guides) → g ∈ guides → 0 ≤ max_group_size g →
  guide_load (guide_id g) (_build_schedule tourists guides) ≤ max_group_size g.
Proof.
  intros Hnd Hg Hpos.
  pose proof (build_schedule_load tourists guides (guide_id g)) as H.
  rewrite (lookup_total_correct _ _ _ (guide_capacity_of_unique _ _ Hnd Hg)) in H.
  lia.
Qed.

(** C2 (overlap soundness). Every assignment of [_build_schedule] is for a
    tourist and a guide of the inputs, and its [time_window] is the
    intersection of the guide's [available_window] with one of that tourist's
    availability windows: it starts at the later start, ends at the earlier
    end, lies within both, and has [start < end]. *)
Theorem overlap_soundness tourists guides a :
  a ∈ _build_schedule tourists guides →
  ∃ t g tw,
    t ∈ tourists ∧ g ∈ guides ∧ tw ∈ availability t
    ∧ asg_tourist_id a = tourist_id t ∧ asg_guide_id a = guide_id g
    ∧ start (time_window a) = Z.max (start tw) (start (available_window g))
    ∧ end_ (time_window a) = Z.min (end_ tw) (end_ (available_window g))
    ∧ within (time_window a) (available_window g)
    ∧ within (time_window a) tw
    ∧ start (time_window a) < end_ (time_window a).
Proof.
  intros Ha.
  pose proof (build_schedule_produced tourists guides) as Hall.
  rewrite Forall_forall in Hall.
  destruct (Hall a Ha) as (t & g & ov & Ht & Hg & -> & Hov & _).
  destruct (find_overlap_Some _ _ _ Hov) as (tw & Htw & Hs & He & Hlt).
  exists t, g, tw. simpl. unfold within.
  repeat split; try done; lia.
Qed.

Lemma overlap_soundness_witness :
  ∃ t g tw,
    t ∈ [t1] ∧ g ∈ [g1] ∧ tw ∈ availability t
    ∧ "t1" = tourist_id t ∧ "g1" = guide_id g
    ∧ hour 10 = Z.max (start tw) (start (available_window g))
    ∧ hour 14 = Z.min (end_ tw) (end_ (available_window g))
    ∧ within (mkWindow (hour 10) (hour 14)) (available_window g)
    ∧ within (mkWindow (hour 10) (hour 14)) tw
    ∧ hour 10 < hour 14.
Proof.
  apply (overlap_soundness [t1] [g1]
           (new_assignment t1 g1 (mkWindow (hour 10) (hour 14)))).
  left.
Defined.


(** C5 (affordability is tested on the rate). For a tourist [t] and a guide
    [g]: when [g]'s hourly rate exceeds [t]'s budget, the scan never selects
    [g] for [t]; when the budget covers the rate, the test
    [tourist.budget < guide.hourly_rate] is false and [g], scanned alone with
    capacity left, is selected whatever overlap it has with [t], so however
    long the tour and whatever it costs in total. At the level of a run,
    every assignment is for a tourist and a guide whose rate is within the
    tourist's budget. *)
Theorem budget_test_on_rate cap t g :
  (∀ guides, (budget t < hourly_rate g)%Q →
             best_guide (select_guide cap t guides) ≠ Some g)
  ∧ ((hourly_rate g <= budget t)%Q →
     Qlt_bool (budget t) (hourly_rate g) = false
     ∧ ∀ ov, 0 < cap !!! guide_id g →
             find_overlap (availability t) (available_window g) = Some ov →
             select_guide cap t [g] = mkBest (Some g) (Some ov) (preference_score t g))
  ∧ (∀ tourists guides a,
       a ∈ _build_schedule tourists guides →
       ∃ t' g' ov, t' ∈ tourists ∧ g' ∈ guides ∧ a = new_assignment t' g' ov
                   ∧ (hourly_rate g' <= budget t')%Q).
Proof.
  split; [|split].
  - intros guides Hlt Hsel.
    pose proof (select_guide_spec cap t guides) as Hspec. cbv zeta in Hspec.
    destruct Hspec as [[Hb _] | (l1 & g' & l2 & ov & _ & Hb & Eg & _)];
      rewrite Hb in Hsel; simpl in Hsel; [done|].
    injection Hsel as ->.
    apply eligible_true in Eg as (_ & Hle & _).
    by apply Qlt_not_le in Hlt.
  - intros Hle. split; [by apply Qlt_bool_false|].
    intros ov Hcap Hov. unfold select_guide. simpl.
    destruct (scan_guide_eligible cap t no_best g) as (ov' & Hov' & ->).
    { apply eligible_true. repeat split; [done | done | by eexists]. }
    rewrite Hov in Hov'. injection Hov' as <-.
    pose proof (preference_score_nonneg t g). simpl.
    by destruct (Z.ltb_spec (-1) (preference_score t g)); [|lia].
  - intros tourists guides a Ha.
    pose proof (build_schedule_produced tourists guides) as Hall.
    rewrite Forall_forall in Hall.
    destruct (Hall a Ha) as (t' & g' & ov & Ht & Hg & -> & _ & Hle).
    by exists t', g', ov.
Qed.

(** ** [list.remove] on a registry *)
Section Upsert.
Context {A : Type} (ident : A → string) (eqb : A → A → bool).
Hypothesis eqb_refl : ∀ x, eqb x x = true.
Hypothesis eqb_ident : ∀ x y, eqb x y = true → ident x = ident y.

(** Removing the record found for an identity removes the first record of
    that identity, and never raises. *)
Lemma remove_existing id l e :
  List.find (λ x, String.eqb (ident x) id) l = Some e →
  list_remove eqb e l = Ok (remove_first_with (λ x, String.eqb (ident x) id) l).
Proof.
  induction l as [|y l IH]; simpl; [done|].
  destruct (String.eqb_spec (ident y) id) as [Hy|Hy].
  - intros [= ->]. by rewrite eqb_refl.
  - intros Hfind. destruct (eqb y e) eqn:E.
    + apply eqb_ident in E. apply List.find_some in Hfind as [_ He].
      apply String.eqb_eq in He. congruence.
    + by rewrite (IH Hfind).
Qed.

Lemma find_none_remove_first id l :
  List.find (λ x, String.eqb (ident x) id) l = None →
  remove_first_with (λ x, String.eqb (ident x) id) l = l.
Proof.
  induction l as [|y l IH]; simpl; [done|].
  destruct (String.eqb (ident y) id); [done|]. intros H. by rewrite IH.
Qed.

Lemma find_none_absent id l :
  List.find (λ x, String.eqb (ident x) id) l = None → id ∉ map ident l.
Proof.
  induction l as [|y l IH]; simpl; [intros _; apply not_elem_of_nil|].
  destruct (String.eqb_spec (ident y) id) as [Hy|Hy]; [done|].
  intros H. apply not_elem_of_cons. split; [done | by apply IH].
Qed.

Lemma find_some_present id l :
  id ∈ map ident l → is_Some (List.find (λ x, String.eqb (ident x) id) l).
Proof.
  intros Hin. destruct (List.find _ l) eqn:E; [by eexists|].
  by apply find_none_absent in E.
Qed.

(** The record of an identity that is re-registered leaves its place. *)
Lemma remove_first_with_split id l1 old l2 :
  id ∉ map ident l1 → ident old = id →
  remove_first_with (λ x, String.eqb (ident x) id) (l1 ++ old :: l2) = l1 ++ l2.
Proof.
  intros Hl1 Hold. induction l1 as [|y l1 IH]; simpl.
  - by rewrite Hold, String.eqb_refl.
  - simpl in Hl1. apply not_elem_of_cons in Hl1 as [Hy Hl1].
    destruct (String.eqb_spec (ident y) id) as [?|_]; [congruence|].
    by rewrite IH.
Qed.

Lemma remove_first_with_sub id l x :
  x ∈ remove_first_with (λ x, String.eqb (ident x) id) l → x ∈ l.
Proof.
  induction l as [|y l IH]; simpl; [done|].
  destruct (String.eqb (ident y) id); [by right|].
  intros [->|H]%elem_of_cons; [by left | right; by apply IH].
Qed.

Lemma remove_first_with_unique id l :
  NoDup (map ident l) →
  NoDup (map ident (remove_first_with (λ x, String.eqb (ident x) id) l))
  ∧ id ∉ map ident (remove_first_with (λ x, String.eqb (ident x) id) l).
Proof.
  induction l as [|y l IH]; simpl.
  { intros _. split; [constructor | apply not_elem_of_nil]. }
  intros [Hy Hnd]%NoDup_cons.
  destruct (String.eqb_spec (ident y) id) as [Heq|Hne].
  - split; [done | by rewrite <- Heq].
  - destruct (IH Hnd) as [Hnd' Hid]. simpl. split.
    + apply NoDup_cons. split; [|done].
      intros Hin. apply Hy.
      apply list_elem_of_fmap in Hin as (z & -> & Hz).
      apply list_elem_of_fmap. exists z. split; [done|].
      by eapply remove_first_with_sub.
    + apply not_elem_of_cons. split; [done | done].
Qed.

End Upsert.




Lemma upsert_unique {A} (ident : A → string) id (l : list A) x :
  ident x = id → NoDup (map ident l) →
  NoDup (map ident (remove_first_with (λ y, String.eqb (ident y) id) l ++ [x])).
Proof.
  intros Hx Hnd.
  destruct (remove_first_with_unique ident id l Hnd) as [Hnd' Hid].
  rewrite map_app. apply NoDup_app. split; [done|]. split.
  - intros i Hi [->|[]%elem_of_nil]%elem_of_cons. congruence.
  - simpl. apply NoDup_singleton.
Qed.

(** ** The registration tools *)

Lemma Window_eqb_refl w : Window_eqb w w = true.
Proof. unfold Window_eqb. by rewrite !Z.eqb_refl. Qed.

Lemma TouristRequest_eqb_refl t : TouristRequest_eqb t t = true.
Proof.
  unfold TouristRequest_eqb.
  rewrite String.eqb_refl, Qeq_bool_refl, !bool_decide_eq_true_2; [done..|].
  apply Forall2_same_length_lookup_2; [done|].
  intros i x y Hx Hy. rewrite Hx in Hy. injection Hy as <-. apply Window_eqb_refl.
Qed.

Lemma TouristRequest_eqb_ident x y :
  TouristRequest_eqb x y = true → tourist_id x = tourist_id y.
Proof.
  unfold TouristRequest_eqb. rewrite !andb_true_iff.
  intros [[[H _] _] _]. by apply String.eqb_eq.
Qed.

Lemma GuideOffer_eqb_refl g : GuideOffer_eqb g g = true.
Proof.
  unfold GuideOffer_eqb.
  by rewrite String.eqb_refl, Qeq_bool_refl, Window_eqb_refl, Z.eqb_refl,
    bool_decide_eq_true_2.
Qed.

Lemma GuideOffer_eqb_ident x y :
  GuideOffer_eqb x y = true → guide_id x = guide_id y.
Proof.
  unfold GuideOffer_eqb. rewrite !andb_true_iff.
  intros [[[[H _] _] _] _]. by apply String.eqb_eq.
Qed.

(** [run_scheduling] never touches the two registries. *)
Lemma run_scheduling_registries s :
  tourist_requests (run_scheduling s).2 = tourist_requests s
  ∧ guide_offers (run_scheduling s).2 = guide_offers s.
Proof.
  unfold run_scheduling.
  destruct (tourist_requests s) eqn:Et; [done|].
  destruct (guide_offers s) eqn:Eg; [done|].
  done.
Qed.

Section ToolFacts.
Variable fromisoformat : string → result datetime.

(** A call whose two timestamps parse drops the record of the same
    identity, if any, and appends the new one. *)
Lemma register_tourist_request_parsed id ws we prefs amount s a b :
  fromisoformat ws = Ok a → fromisoformat we = Ok b →
  register_tourist_request fromisoformat id ws we prefs amount s =
    let requests :=
      remove_first_with (λ t, String.eqb (tourist_id t) id) (tourist_requests s)
      ++ [mkTouristRequest id [mkWindow a b] prefs amount] in
    (registered_tourist id (length requests),
     mkSchedulerState requests (guide_offers s) (assignments s)).
Proof.
  intros Ha Hb. unfold register_tourist_request. rewrite Ha, Hb. simpl.
  destruct (List.find _ (tourist_requests s)) as [e|] eqn:E.
  - rewrite (remove_existing tourist_id TouristRequest_eqb
               TouristRequest_eqb_refl TouristRequest_eqb_ident _ _ _ E).
    done.
  - by rewrite (find_none_remove_first tourist_id _ _ E).
Qed.

Lemma register_tourist_request_unparsed id ws we prefs amount s :
  (∃ e, fromisoformat ws = Raise e)
  ∨ (∃ e, fromisoformat we = Raise e) →
  ∃ e, register_tourist_request fromisoformat id ws we prefs amount s
       = (error e, s).
Proof.
  unfold register_tourist_request.
  destruct (fromisoformat ws) as [a|e1] eqn:Ea; simpl.
  - intros [[e H]|[e H]]; [done|]. rewrite H. simpl. by exists e.
  - intros _. by exists e1.
Qed.

Lemma register_guide_offer_parsed id cats ws we rate size s a b :
  fromisoformat ws = Ok a → fromisoformat we = Ok b →
  register_guide_offer fromisoformat id cats ws we rate size s =
    let offers :=
      remove_first_with (λ g, String.eqb (guide_id g) id) (guide_offers s)
      ++ [mkGuideOffer id cats (mkWindow a b) rate size] in
    (registered_guide id (length offers),
     mkSchedulerState (tourist_requests s) offers (assignments s)).
Proof.
  intros Ha Hb. unfold register_guide_offer. rewrite Ha, Hb. simpl.
  destruct (List.find _ (guide_offers s)) as [e|] eqn:E.
  - rewrite (remove_existing guide_id GuideOffer_eqb
               GuideOffer_eqb_refl GuideOffer_eqb_ident _ _ _ E).
    done.
  - by rewrite (find_none_remove_first guide_id _ _ E).
Qed.

Lemma register_guide_offer_unparsed id cats ws we rate size s :
  (∃ e, fromisoformat ws = Raise e)
  ∨ (∃ e, fromisoformat we = Raise e) →
  ∃ e, register_guide_offer fromisoformat id cats ws we rate size s
       = (error e, s).
Proof.
  unfold register_guide_offer.
  destruct (fromisoformat ws) as [a|e1] eqn:Ea; simpl.
  - intros [[e H]|[e H]]; [done|]. rewrite H. simpl. by exists e.
  - intros _. by exists e1.
Qed.

(** Identities stay unique in every state the tools lead to. *)
Lemma reachable_unique s : reachable fromisoformat s → unique_identities s.
Proof.
  induction 1 as [|s id ws we prefs amount _ [IHt IHg]
                   |s id cats ws we rate size _ [IHt IHg]
                   |s _ [IHt IHg]|s _ _].
  - split; constructor.
  - destruct (fromisoformat ws) as [a|e1] eqn:Ea;
      [destruct (fromisoformat we) as [b|e2] eqn:Eb|].
    + rewrite (register_tourist_request_parsed _ _ _ _ _ _ a b) by done.
      split; simpl; [by apply upsert_unique | done].
    + destruct (register_tourist_request_unparsed id ws we prefs amount s)
        as [e ->]; [right; by eexists | by split].
    + destruct (register_tourist_request_unparsed id ws we prefs amount s)
        as [e ->]; [left; by eexists | by split].
  - destruct (fromisoformat ws) as [a|e1] eqn:Ea;
      [destruct (fromisoformat we) as [b|e2] eqn:Eb|].
    + rewrite (register_guide_offer_parsed _ _ _ _ _ _ _ a b) by done.
      split; simpl; [done | by apply upsert_unique].
    + destruct (register_guide_offer_unparsed id cats ws we rate size s)
        as [e ->]; [right; by eexists | by split].
    + destruct (register_guide_offer_unparsed id cats ws we rate size s)
        as [e ->]; [left; by eexists | by split].
  - destruct (run_scheduling_registries s) as [Ht Hg].
    unfold unique_identities. by rewrite Ht, Hg.
  - split; constructor.
Qed.
End ToolFacts.

(** ** The coordination tools *)

(** C3, as the code has it. [register_tourist_request] does not check the
    order of the window. A call with a list of preference labels and a
    budget that is not negative, whose two timestamps parse, replaces or
    appends the record, whether its window starts before it ends or not, and
    returns a confirmation whose queue position is the size of the registry
    after the insert; the guide registry and the ledger are as before. A
    call with a timestamp that does not parse returns an error reply and
    leaves the state as it was. *)
Theorem register_tourist_request_outcome
    (fromisoformat : string → result datetime) id ws we prefs amount s :
  let r := register_tourist_request fromisoformat id ws we prefs amount s in
  (∀ a b,
     fromisoformat ws = Ok a → fromisoformat we = Ok b → (0 <= amount)%Q →
     tourist_requests r.2 =
       remove_first_with (λ t, String.eqb (tourist_id t) id) (tourist_requests s)
       ++ [mkTouristRequest id [mkWindow a b] prefs amount]
     ∧ r.1 = registered_tourist id (length (tourist_requests r.2))
     ∧ guide_offers r.2 = guide_offers s
     ∧ assignments r.2 = assignments s)
  ∧ ((∃ e, fromisoformat ws = Raise e) ∨ (∃ e, fromisoformat we = Raise e) →
     status r.1 = "error" ∧ r.2 = s).
Proof.
  cbv zeta. split.
  - intros a b Ha Hb _.
    by rewrite (register_tourist_request_parsed _ _ _ _ _ _ _ a b).
  - intros Hraise.
    by destruct (register_tourist_request_unparsed fromisoformat id ws we prefs
                   amount s Hraise) as [e ->].
Qed.

Lemma register_tourist_request_outcome_witness :
  let r := register_tourist_request clock "t2" "2025-06-01T08:00:00"
             "2025-06-01T12:00:00" ["food"] 80 one_tourist in
  tourist_requests r.2 =
    remove_first_with (λ t, String.eqb (tourist_id t) "t2")
      (tourist_requests one_tourist)
    ++ [mkTouristRequest "t2" [mkWindow (hour 8) (hour 12)] ["food"] 80]
  ∧ r.1 = registered_tourist "t2" (length (tourist_requests r.2))
  ∧ guide_offers r.2 = guide_offers one_tourist
  ∧ assignments r.2 = assignments one_tourist.
Proof.
  cbv zeta.
  apply (proj1 (register_tourist_request_outcome clock "t2" "2025-06-01T08:00:00"
                  "2025-06-01T12:00:00" ["food"] 80 one_tourist)
           (hour 8) (hour 12)).
  - reflexivity.
  - reflexivity.
  - by vm_compute.
Defined.

(** C3 as stated fails: a window that ends before it starts is registered,
    with a budget of 100 and a list of labels. *)
Lemma register_tourist_request_accepts_empty_window :
  let r := register_tourist_request clock "t1" "2025-06-01T17:00:00"
             "2025-06-01T09:00:00" ["culture"] 100 initial_state in
  ¬ (hour 17 < hour 9)
  ∧ r.1 = registered_tourist "t1" 1
  ∧ tourist_requests r.2 =
      [mkTouristRequest "t1" [mkWindow (hour 17) (hour 9)] ["culture"] 100].
Proof. cbv zeta. split; [by vm_compute | split; reflexivity]. Qed.

(** C6 (empty registries). Without tourist requests, [run_scheduling]
    replies with the status [no_tourists] and an empty assignment list and
    leaves the state, ledger included, as it was; with tourist requests but
    no guide offers it does the same with the status [no_guides]. Neither
    status is the error status. *)
Theorem run_scheduling_empty_registry s :
  (tourist_requests s = [] →
   let r := run_scheduling s in
   status r.1 = "no_tourists" ∧ reply_assignments r.1 = Some [] ∧ r.2 = s
   ∧ status r.1 ≠ "error")
  ∧ (tourist_requests s ≠ [] → guide_offers s = [] →
     let r := run_scheduling s in
     status r.1 = "no_guides" ∧ reply_assignments r.1 = Some [] ∧ r.2 = s
     ∧ status r.1 ≠ "error").
Proof.
  unfold run_scheduling. split.
  - intros ->. by simpl.
  - intros Ht ->. destruct (tourist_requests s); [done|]. by simpl.
Qed.

(** C9 (frame of a run). When [run_scheduling] completes, the two registries
    hold the same records in the same order as before, and the ledger is
    exactly the list [_build_schedule] returned for them, whatever the ledger
    held before; the reply carries that list. *)
Theorem run_scheduling_replaces_ledger s :
  status (run_scheduling s).1 = "completed" →
  let r := run_scheduling s in
  tourist_requests r.2 = tourist_requests s
  ∧ guide_offers r.2 = guide_offers s
  ∧ assignments r.2 = _build_schedule (tourist_requests s) (guide_offers s)
  ∧ reply_assignments r.1 = Some (assignments r.2).
Proof.
  unfold run_scheduling.
  destruct (tourist_requests s) eqn:Et; [done|].
  destruct (guide_offers s) eqn:Eg; [done|].
  by simpl.
Qed.

Lemma run_scheduling_replaces_ledger_witness :
  let s := mkSchedulerState [t1] [g1] [] in
  assignments (run_scheduling s).2 = _build_schedule [t1] [g1].
Proof.
  cbv zeta.
  apply (run_scheduling_replaces_ledger (mkSchedulerState [t1] [g1] [])).
  reflexivity.
Defined.



(** C10 (re-registration moves the record last). When a registry holds a
    record of the identity being registered, the call takes that record out
    of its place and puts the new record at the end: the other records keep
    their relative order and the identity is now scanned last. The same holds
    for guide offers. *)
Theorem reregistration_moves_last (fromisoformat : string → result datetime) s :
  (∀ id ws we prefs amount a b l1 old l2,
     fromisoformat ws = Ok a → fromisoformat we = Ok b →
     tourist_requests s = l1 ++ old :: l2 →
     tourist_id old = id → id ∉ map tourist_id l1 →
     tourist_requests
       (register_tourist_request fromisoformat id ws we prefs amount s).2
     = l1 ++ l2 ++ [mkTouristRequest id [mkWindow a b] prefs amount])
  ∧ (∀ id cats ws we rate size a b l1 old l2,
       fromisoformat ws = Ok a → fromisoformat we = Ok b →
       guide_offers s = l1 ++ old :: l2 →
       guide_id old = id → id ∉ map guide_id l1 →
       guide_offers
         (register_guide_offer fromisoformat id cats ws we rate size s).2
       = l1 ++ l2 ++ [mkGuideOffer id cats (mkWindow a b) rate size]).
Proof.
  split.
  - intros id ws we prefs amount a b l1 old l2 Ha Hb Hs Hold Hl1.
    rewrite (register_tourist_request_parsed _ _ _ _ _ _ _ a b) by done. simpl.
    rewrite Hs, (remove_first_with_split tourist_id id l1 old l2) by done.
    by rewrite <- app_assoc.
  - intros id cats ws we rate size a b l1 old l2 Ha Hb Hs Hold Hl1.
    rewrite (register_guide_offer_parsed _ _ _ _ _ _ _ _ a b) by done. simpl.
    rewrite Hs, (remove_first_with_split guide_id id l1 old l2) by done.
    by rewrite <- app_assoc.
Qed.

(** ** The order of service *)

Lemma first_start_window t w ws :
  availability t = w :: ws → first_start t = start w.
Proof. unfold first_start. by intros ->. Qed.

Lemma has_availability_cons t :
  has_availability t = true → ∃ w ws, availability t = w :: ws.
Proof. unfold has_availability. destruct (availability t); [done | by eexists _, _]. Qed.

(** For a tourist with a window, the key of the sort is the start of its
    first window. *)
Lemma first_window_starts_at_key k t :
  first_window_starts_at k t ↔ has_availability t = true ∧ first_start t = k.
Proof.
  unfold first_window_starts_at, has_availability, first_start.
  destruct (availability t) as [|w ws]; simpl.
  - split; [done | by intros [? _]].
  - split; [by intros [= ->] | by intros [_ ->]].
Qed.

Lemma StronglySorted_filter {A} (R : A → A → Prop) (P : A → Prop)
    `{!∀ x, Decision (P x)} l :
  StronglySorted R l → StronglySorted R (filter P l).
Proof.
  induction 1 as [|x l Hl IH Hx]; [constructor|].
  rewrite filter_cons. destruct (decide (P x)); [|done].
  constructor; [done|]. rewrite Forall_forall in Hx. apply Forall_forall.
  intros y [_ Hy]%list_elem_of_filter. by apply Hx.
Qed.

(** Among tourists with a window, the order of the keys is the order of the
    starts of the first windows. *)
Lemma key_le_first_window l :
  Forall (λ t, has_availability t = true) l →
  StronglySorted (key_le first_start) l ↔ StronglySorted first_window_no_later l.
Proof.
  induction 1 as [|x l Hx Hl IH]; [split; constructor|].
  rewrite !StronglySorted_cons, IH.
  apply has_availability_cons in Hx as (w & ws & Hw).
  assert (Forall (key_le first_start x) l ↔ Forall (first_window_no_later x) l)
    as ->; [|done].
  rewrite !Forall_forall. rewrite Forall_forall in Hl.
  split; intros Hall y Hy; specialize (Hall y Hy).
  - intros w1 ws1 w2 ws2 H1 H2. unfold key_le in Hall.
    by rewrite (first_start_window _ _ _ H1), (first_start_window _ _ _ H2) in Hall.
  - destruct (has_availability_cons y (Hl y Hy)) as (w' & ws' & Hw').
    unfold key_le. rewrite (first_start_window _ _ _ Hw), (first_start_window _ _ _ Hw').
    by eapply Hall.
Qed.

(** A tourist without a window is passed over. *)
Lemma schedule_tourist_no_window guides st t :
  has_availability t = false → schedule_tourist guides st t = st.
Proof.
  unfold has_availability, schedule_tourist. destruct st as [asg cap].
  by destruct (availability t).
Qed.

(** The loop does the same on the tourists with a window alone. *)
Lemma foldl_schedule_skip guides ts : ∀ st,
  foldl (schedule_tourist guides) st ts
  = foldl (schedule_tourist guides) st (filter (λ t, has_availability t = true) ts).
Proof.
  induction ts as [|t ts IH]; intros st; [done|].
  change (foldl (schedule_tourist guides) st (t :: ts))
    with (foldl (schedule_tourist guides) (schedule_tourist guides st t) ts).
  rewrite filter_cons. destruct (decide (has_availability t = true)) as [Ht|Ht].
  - change (foldl (schedule_tourist guides) st (t :: ?l))
      with (foldl (schedule_tourist guides) (schedule_tourist guides st t) l).
    apply IH.
  - rewrite schedule_tourist_no_window by by destruct (has_availability t).
    apply IH.
Qed.

(** C8 (determinism and order of service). Running [run_scheduling] again
    on the state it left gives the same reply. The engine processes the
    tourists that have an availability window, and no others, in the order
    [served]: its result is that of the loop over [served]. This order is a
    rearrangement of the input tourists with a window; it is ascending in
    the start of the first availability window; and the tourists whose first
    window starts at the same instant are in it in their input order. There
    is one list only with these three properties, so that the order of
    service is fixed by the input. The tourist identities of the assignments
    are met along [served], one assignment at most per tourist processed, so
    that a tourist without a window gets none. *)
Theorem matching_deterministic s tourists guides :
  let served :=
    filter (λ t, has_availability t = true) (sorted first_start tourists) in
  (run_scheduling (run_scheduling s).2).1 = (run_scheduling s).1
  ∧ _build_schedule tourists guides
    = (foldl (schedule_tourist guides) ([], guide_capacity_of guides) served).1
  ∧ served ≡ₚ filter (λ t, has_availability t = true) tourists
  ∧ StronglySorted first_window_no_later served
  ∧ (∀ k, filter (first_window_starts_at k) served
          = filter (first_window_starts_at k) tourists)
  ∧ (∀ l, Forall (λ t, has_availability t = true) l →
          StronglySorted first_window_no_later l →
          (∀ k, filter (first_window_starts_at k) l
                = filter (first_window_starts_at k) tourists) →
          l = served)
  ∧ sublist (map asg_tourist_id (_build_schedule tourists guides))
            (map tourist_id served).
Proof.
  cbv zeta.
  assert (Hserved : Forall (λ t, has_availability t = true)
            (filter (λ t, has_availability t = true) (sorted first_start tourists))).
  { apply Forall_forall. by intros t [Ht _]%list_elem_of_filter. }
  assert (Hstable : ∀ l k,
            Forall (λ t, has_availability t = true) l →
            filter (first_window_starts_at k) l = filter (λ t, first_start t = k) l).
  { intros l k. induction 1 as [|x l Hx Hl IH]; [done|].
    rewrite !filter_cons, IH.
    destruct (decide (first_window_starts_at k x)) as [Hk|Hk],
             (decide (first_start x = k)) as [Hf|Hf]; try done.
    - apply first_window_starts_at_key in Hk as [_ Hk]. done.
    - destruct Hk. by apply first_window_starts_at_key. }
  assert (Hkeys : ∀ k,
            filter (λ t, first_start t = k)
              (filter (λ t, has_availability t = true) (sorted first_start tourists))
            = filter (first_window_starts_at k) tourists).
  { intros k.
    trans (filter (λ t, has_availability t = true)
             (filter (λ t, first_start t = k) (sorted first_start tourists))).
    { rewrite !list_filter_filter. apply list_filter_iff. intros t. tauto. }
    rewrite sorted_stable, list_filter_filter.
    apply list_filter_iff. intros t. by rewrite first_window_starts_at_key. }
  split; [|split; [|split; [|split; [|split; [|split]]]]].
  - unfold run_scheduling.
    destruct (tourist_requests s) eqn:Et; [simpl; by rewrite Et|].
    destruct (guide_offers s) eqn:Eg; [simpl; by rewrite Et, Eg|].
    done.
  - unfold _build_schedule. by rewrite <- foldl_schedule_skip.
  - by rewrite (sorted_perm first_start tourists).
  - apply key_le_first_window; [done|].
    apply StronglySorted_filter, sorted_sorted.
  - intros k. by rewrite Hstable, Hkeys.
  - intros l Hl Hsorted Hk.
    apply (stable_sorted_unique first_start).
    + by apply key_le_first_window.
    + apply StronglySorted_filter, sorted_sorted.
    + intros k. by rewrite <- Hstable, Hk, Hkeys.
  - unfold _build_schedule.
    destruct (foldl_schedule_order guides (sorted first_start tourists) []
                (guide_capacity_of guides)) as (l & -> & Hsub).
    done.
Qed.

(** ** Scenarios *)

Example scenario_single :
  map (λ a, (asg_tourist_id a, asg_guide_id a, time_window a)) (_build_schedule [t1] [g1])
  = [("t1", "g1", mkWindow (hour 10) (hour 14))].
Proof. vm_compute. reflexivity. Qed.

Example scenario_single_cost :
  ∃ a, _build_schedule [t1] [g1] = [a] ∧ (total_cost a == 200)%Q.
Proof. eexists. split; [vm_compute; reflexivity | reflexivity]. Qed.

(** With one place, the tourist who is free first gets it, though it
    registered second. *)
Example scenario_scarce_capacity :
  map (λ a, (asg_tourist_id a, asg_guide_id a, time_window a))
      (_build_schedule [t1; t2] [g2])
  = [("t2", "g2", mkWindow (hour 10) (hour 12))].
Proof. vm_compute. reflexivity. Qed.

(** A guide whose rate is above the budget is passed over, also when it is
    the only one sharing a category with the tourist. *)
Example scenario_rate_above_budget :
  let dear := mkGuideOffer "dear" ["food"] (mkWindow (hour 8) (hour 12)) 90 1 in
  let plain := mkGuideOffer "plain" [] (mkWindow (hour 8) (hour 12)) 80 1 in
  map asg_guide_id (_build_schedule [t2] [dear; plain]) = ["plain"]
  ∧ _build_schedule [t2] [dear] = [].
Proof. split; vm_compute; reflexivity. Qed.

(** The budget is compared with the rate, not with the cost of the tour:
    [t1], with a budget of 100, is assigned a tour that costs 200. *)
Example scenario_cost_above_budget :
  ∃ a, _build_schedule [t1] [g1] = [a] ∧ (budget t1 < total_cost a)%Q.
Proof. eexists. split; [vm_compute; reflexivity | reflexivity]. Qed.

(** On equal scores the guide registered first is kept. *)
Example scenario_tie :
  let first := mkGuideOffer "first" ["food"] (mkWindow (hour 8) (hour 12)) 50 1 in
  let second := mkGuideOffer "second" ["food"] (mkWindow (hour 8) (hour 12)) 40 1 in
  map asg_guide_id (_build_schedule [t2] [first; second]) = ["first"]
  ∧ map asg_guide_id (_build_schedule [t2] [second; first]) = ["second"].
Proof. split; vm_compute; reflexivity. Qed.

(** A guide scanned later is kept when it has more of the tourist's labels:
    [t2] asks for food, and the second guide offers it. *)
Example scenario_later_guide_higher_score :
  let plain := mkGuideOffer "plain" ["culture"] (mkWindow (hour 8) (hour 12)) 50 1 in
  let foodie := mkGuideOffer "foodie" ["food"] (mkWindow (hour 8) (hour 12)) 50 1 in
  map asg_guide_id (_build_schedule [t2] [plain; foodie]) = ["foodie"]
  ∧ map asg_guide_id (_build_schedule [t2] [foodie; plain]) = ["foodie"].
Proof. split; vm_compute; reflexivity. Qed.

(** The order of service goes by the start of the first window, not by its
    end nor by the order of registration: of two tourists wanting the one
    place of [g2], the one free from 8 to 17 is served before the one free
    from 9 to 12, who registered first. *)
Example scenario_earlier_start_first :
  let short := mkTouristRequest "short" [mkWindow (hour 9) (hour 12)] ["food"] 80 in
  let long := mkTouristRequest "long" [mkWindow (hour 8) (hour 17)] ["food"] 80 in
  map (λ a, (asg_tourist_id a, time_window a)) (_build_schedule [short; long] [g2])
  = [("long", mkWindow (hour 10) (hour 14))].
Proof. vm_compute. reflexivity. Qed.

(** Only the first window counts for the order: a tourist whose second
    window starts earliest is still served by the start of its first. *)
Example scenario_first_window_is_the_key :
  let late := mkTouristRequest "late"
                [mkWindow (hour 12) (hour 17); mkWindow (hour 8) (hour 9)] [] 80 in
  map asg_tourist_id (_build_schedule [late; t1] [g2]) = ["t1"].
Proof. vm_compute. reflexivity. Qed.

(** Two offers under one identity, as no registry holds them: the dictionary
    keeps the later group size. *)
Example scenario_duplicate_identity :
  let small := mkGuideOffer "g" [] (mkWindow (hour 8) (hour 17)) 10 1 in
  let large := mkGuideOffer "g" [] (mkWindow (hour 8) (hour 17)) 10 2 in
  guide_capacity_of [small; large] !! "g" = Some 2
  ∧ guide_load "g" (_build_schedule [t1; t2] [small; large]) = 2.
Proof. split; vm_compute; reflexivity. Qed.

(** Registering [t1] again behind [t2] moves it to the end. *)
Example scenario_reregistration :
  let s := (register_tourist_request clock "t2" "2025-06-01T08:00:00"
              "2025-06-01T12:00:00" ["food"] 80 one_tourist).2 in
  let s' := (register_tourist_request clock "t1" "2025-06-01T10:00:00"
               "2025-06-01T14:00:00" [] 60 s).2 in
  map tourist_id (tourist_requests s) = ["t1"; "t2"]
  ∧ map tourist_id (tourist_requests s') = ["t2"; "t1"].
Proof. split; reflexivity. Qed.

(** A timestamp that does not parse is answered with an error reply and
    changes nothing. *)
Example scenario_unparsed :
  register_tourist_request clock "t3" "soon" "2025-06-01T17:00:00" [] 10 one_tourist
  = (error "Invalid isoformat string: 'soon'", one_tourist).
Proof. reflexivity. Qed.

(** * Further properties of the engine *)

(** One iteration, with the reason when nothing is appended: no guide passes
    the three tests for the tourist. *)
Lemma schedule_tourist_served_or_not guides asg cap t :
  (schedule_tourist guides (asg, cap) t = (asg, cap)
   ∧ ∀ g, g ∈ guides → eligible cap t g = false)
  ∨ ∃ g ov,
      g ∈ guides ∧ eligible cap t g = true
      ∧ schedule_tourist guides (asg, cap) t =
          (asg ++ [new_assignment t g ov],
           <[guide_id g := cap !!! guide_id g - 1]> cap).
Proof.
  pose proof (select_guide_spec cap t guides) as Hsel. cbv zeta in Hsel.
  destruct Hsel as [[Hb Hnone] | (l1 & g & l2 & ov & Hl & Hb & Eg & Hov & _)].
  - left. split; [|done].
    unfold schedule_tourist. rewrite Hb. simpl. by destruct (availability t).
  - right. exists g, ov. split; [|split; [done|]].
    + rewrite Hl. apply elem_of_app. right. by left.
    + unfold schedule_tourist. rewrite Hb. simpl.
      by destruct (availability t).
Qed.

(** Each assignment takes exactly one place of its guide. *)
Lemma schedule_tourist_remaining guides asg cap t gid :
  (schedule_tourist guides (asg, cap) t).2 !!! gid
  = cap !!! gid
    - (guide_load gid (schedule_tourist guides (asg, cap) t).1 - guide_load gid asg).
Proof.
  destruct (schedule_tourist_cases guides asg cap t)
    as [-> | (g & ov & _ & _ & _ & _ & ->)]; simpl; [lia|].
  rewrite guide_load_snoc. simpl.
  destruct (decide (guide_id g = gid)) as [<-|Hne].
  - rewrite lookup_total_insert_eq. lia.
  - rewrite lookup_total_insert_ne by done. lia.
Qed.

Lemma foldl_schedule_remaining guides ts : ∀ asg cap gid,
  (foldl (schedule_tourist guides) (asg, cap) ts).2 !!! gid
  = cap !!! gid
    - (guide_load gid (foldl (schedule_tourist guides) (asg, cap) ts).1
       - guide_load gid asg).
Proof.
  induction ts as [|t ts IH]; intros asg cap gid; [simpl; lia|].
  change (foldl (schedule_tourist guides) (asg, cap) (t :: ts))
    with (foldl (schedule_tourist guides) (schedule_tourist guides (asg, cap) t) ts).
  pose proof (schedule_tourist_remaining guides asg cap t gid) as Hstep.
  destruct (schedule_tourist guides (asg, cap) t) as [asg' cap'].
  rewrite IH. cbn [fst snd] in Hstep. lia.
Qed.

(** The counters only go down. *)
Lemma foldl_schedule_decreasing guides ts asg cap gid :
  (foldl (schedule_tourist guides) (asg, cap) ts).2 !!! gid ≤ cap !!! gid.
Proof.
  rewrite foldl_schedule_remaining.
  destruct (foldl_schedule_order guides ts asg cap) as (l & -> & _).
  unfold guide_load. rewrite filter_app, length_app. lia.
Qed.

(** A tourist that is processed is served, or no guide that still has a
    place at the end of the run was within its budget with an overlap. *)
Lemma foldl_schedule_unserved guides ts : ∀ asg cap t,
  t ∈ ts →
  (∃ g ov, new_assignment t g ov ∈ (foldl (schedule_tourist guides) (asg, cap) ts).1)
  ∨ (∀ g, g ∈ guides →
          0 < (foldl (schedule_tourist guides) (asg, cap) ts).2 !!! guide_id g →
          (budget t < hourly_rate g)%Q
          ∨ find_overlap (availability t) (available_window g) = None).
Proof.
  induction ts as [|t0 ts IH]; intros asg cap t Ht.
  { by apply elem_of_nil in Ht. }
  change (foldl (schedule_tourist guides) (asg, cap) (t0 :: ts))
    with (foldl (schedule_tourist guides) (schedule_tourist guides (asg, cap) t0) ts).
  apply elem_of_cons in Ht as [->|Ht].
  - destruct (schedule_tourist_served_or_not guides asg cap t0)
      as [[-> Hnone] | (g & ov & _ & _ & ->)].
    + right. intros g Hg Hleft.
      pose proof (foldl_schedule_decreasing guides ts asg cap (guide_id g)).
      specialize (Hnone g Hg). unfold eligible in Hnone.
      rewrite !andb_false_iff, !negb_false_iff, bool_decide_eq_false in Hnone.
      destruct Hnone as [[Hc|Hb]|Ho].
      * apply Z.leb_le in Hc. lia.
      * left. by apply Qlt_bool_true.
      * right. destruct (find_overlap _ _) eqn:E; [|done].
        destruct Ho. by eexists.
    + left. exists g, ov.
      destruct (foldl_schedule_order guides ts (asg ++ [new_assignment t0 g ov])
                  (<[guide_id g := cap !!! guide_id g - 1]> cap)) as (l & -> & _).
      apply elem_of_app. left. apply elem_of_app. right. by left.
  - destruct (schedule_tourist guides (asg, cap) t0) as [asg' cap'].
    by apply IH.
Qed.

(** X1 (the greedy pass leaves no compatible pair). After a run, take a
    tourist of the input whose identity is in no assignment and a guide of
    the input that has fewer assignments than the capacity registered for
    it: then the guide's rate is above the tourist's budget, or no
    availability window of the tourist overlaps the guide's window. *)
Theorem greedy_leaves_no_compatible_pair tourists guides t g c :
  t ∈ tourists → g ∈ guides →
  tourist_id t ∉ map asg_tourist_id (_build_schedule tourists guides) →
  guide_capacity_of guides !! guide_id g = Some c →
  guide_load (guide_id g) (_build_schedule tourists guides) < c →
  (budget t < hourly_rate g)%Q
  ∨ find_overlap (availability t) (available_window g) = None.
Proof.
  intros Ht Hg Hun Hc Hfree. unfold _build_schedule in *.
  assert (t ∈ sorted first_start tourists) as Hts by by rewrite sorted_perm.
  destruct (foldl_schedule_unserved guides (sorted first_start tourists) []
              (guide_capacity_of guides) t Hts) as [(g' & ov & Hin) | Hno].
  - destruct Hun. apply list_elem_of_fmap. by exists (new_assignment t g' ov).
  - apply (Hno g Hg). rewrite foldl_schedule_remaining.
    rewrite (lookup_total_correct _ _ _ Hc).
    change (guide_load (guide_id g) []) with 0. lia.
Qed.

Lemma greedy_leaves_no_compatible_pair_witness :
  let poor := mkTouristRequest "t3" [mkWindow (hour 9) (hour 17)] ["food"] 10 in
  (budget poor < hourly_rate g1)%Q
  ∨ find_overlap (availability poor) (available_window g1) = None.
Proof.
  cbv zeta.
  apply (greedy_leaves_no_compatible_pair
           [t1; mkTouristRequest "t3" [mkWindow (hour 9) (hour 17)] ["food"] 10]
           [g1] _ g1 5).
  - right. left.
  - left.
  - apply (bool_decide_unpack _). by vm_compute.
  - reflexivity.
  - by vm_compute.
Defined.

Lemma each_tourist_once_aux tourists guides :
  NoDup (map tourist_id tourists) →
  NoDup (map asg_tourist_id (_build_schedule tourists guides)).
Proof.
  intros Hnd. unfold _build_schedule.
  destruct (foldl_schedule_order guides (sorted first_start tourists) []
              (guide_capacity_of guides)) as (l & -> & Hsub).
  simpl. eapply sublist_NoDup; [|exact Hsub].
  eapply sublist_NoDup; [|apply fmap_sublist, sublist_filter].
  by rewrite (sorted_perm first_start tourists).
Qed.

(** A run makes at most one assignment per tourist with a window. *)
Lemma build_schedule_length tourists guides :
  (length (_build_schedule tourists guides)
   ≤ length (filter (λ t, has_availability t = true) tourists))%nat.
Proof.
  unfold _build_schedule.
  destruct (foldl_schedule_order guides (sorted first_start tourists) []
              (guide_capacity_of guides)) as (l & -> & Hsub).
  simpl. apply sublist_length in Hsub. rewrite !length_map in Hsub.
  by rewrite (sorted_perm first_start tourists) in Hsub.
Qed.

(** X2 (nobody is served twice). A run makes at most as many assignments as
    there are tourists with an availability window, and when the tourist
    identities are pairwise distinct no identity occurs in two
    assignments. *)
Theorem each_tourist_served_once tourists guides :
  (length (_build_schedule tourists guides)
   ≤ length (filter (λ t, has_availability t = true) tourists))%nat
  ∧ (NoDup (map tourist_id tourists) →
     NoDup (map asg_tourist_id (_build_schedule tourists guides))).
Proof.
  unfold _build_schedule.
  destruct (foldl_schedule_order guides (sorted first_start tourists) []
              (guide_capacity_of guides)) as (l & -> & Hsub).
  simpl. split.
  - apply sublist_length in Hsub. rewrite !length_map in Hsub.
    by rewrite (sorted_perm first_start tourists) in Hsub.
  - intros Hnd. eapply sublist_NoDup; [|exact Hsub].
    eapply sublist_NoDup; [|apply fmap_sublist, sublist_filter].
    by rewrite (sorted_perm first_start tourists).
Qed.

Lemma filter_key_absent {A} (key : A → Z) k (l : list A) :
  k ∉ map key l → filter (λ a, key a = k) l = [].
Proof.
  induction l as [|y l IH]; simpl; [done|].
  intros [Hy Hl]%not_elem_of_cons. rewrite filter_cons.
  destruct (decide (key y = k)); [congruence | by apply IH].
Qed.

(** With pairwise distinct keys, the sorted list does not depend on the
    order of the input. *)
Lemma sorted_distinct_keys {A} (key : A → Z) (l l' : list A) :
  l ≡ₚ l' → NoDup (map key l) → sorted key l = sorted key l'.
Proof.
  intros Hperm Hnd.
  apply (stable_sorted_unique key); [apply sorted_sorted..|].
  intros k. rewrite !sorted_stable.
  assert (Hshort : (length (filter (λ a, key a = k) l) ≤ 1)%nat).
  { clear Hperm. induction l as [|x l IH]; simpl; [lia|].
    simpl in Hnd. apply NoDup_cons in Hnd as [Hx Hnd]. rewrite filter_cons.
    destruct (decide (key x = k)) as [<-|]; [|by apply IH].
    rewrite (filter_key_absent key (key x) l Hx). simpl. lia. }
  assert (Hk : filter (λ a, key a = k) l ≡ₚ filter (λ a, key a = k) l')
    by by rewrite Hperm.
  destruct (filter (λ a, key a = k) l) as [|x [|y rest]]; simpl in Hshort.
  - by apply Permutation_nil_l in Hk.
  - by apply Permutation_singleton_l in Hk.
  - lia.
Qed.

(** X3 (the order of the tourists matters on ties only). When the tourists
    have pairwise distinct sort keys (start of the first availability
    window), any rearrangement of the tourist list gives the same
    assignments, in the same order. *)
Theorem tourist_order_irrelevant tourists tourists' guides :
  tourists ≡ₚ tourists' →
  NoDup (map first_start tourists) →
  _build_schedule tourists guides = _build_schedule tourists' guides.
Proof.
  intros Hperm Hnd. unfold _build_schedule.
  by rewrite (sorted_distinct_keys first_start tourists tourists').
Qed.

Lemma tourist_order_irrelevant_witness :
  _build_schedule [t1; t2] [g2] = _build_schedule [t2; t1] [g2].
Proof.
  apply tourist_order_irrelevant.
  - apply Permutation_swap.
  - apply (bool_decide_unpack _). by vm_compute.
Defined.

(** * Further properties of the tools *)

Section UpsertMore.
Context {A : Type} (ident : A → string).

(** An upsert keeps every identity that was there. *)
Lemma upsert_keeps_identities id (l : list A) x i :
  ident x = id → i ∈ map ident l →
  i ∈ map ident (remove_first_with (λ y, String.eqb (ident y) id) l ++ [x]).
Proof.
  intros Hx Hi. rewrite map_app. apply elem_of_app.
  destruct (decide (i = id)) as [->|Hne]; [right; simpl; rewrite Hx; by left|].
  left. induction l as [|y l IH]; simpl in *; [done|].
  destruct (String.eqb_spec (ident y) id) as [Hy|Hy].
  - apply elem_of_cons in Hi as [->|Hi]; [congruence | done].
  - simpl. apply elem_of_cons in Hi as [->|Hi]; [by left | right; by apply IH].
Qed.

(** The records of the other identities stay, in their order. *)
Lemma upsert_keeps_others id (l : list A) x :
  ident x = id →
  filter (λ y, ident y ≠ id)
         (remove_first_with (λ y, String.eqb (ident y) id) l ++ [x])
  = filter (λ y, ident y ≠ id) l.
Proof.
  intros Hx. rewrite filter_app, filter_cons, filter_nil.
  destruct (decide (ident x ≠ id)); [done|]. rewrite app_nil_r.
  induction l as [|y l IH]; simpl; [done|].
  destruct (String.eqb_spec (ident y) id) as [Hy|Hy].
  - rewrite filter_cons. by destruct (decide (ident y ≠ id)).
  - by rewrite !filter_cons, IH.
Qed.

(** The record of a new identity is appended. *)
Lemma upsert_new id (l : list A) :
  id ∉ map ident l →
  remove_first_with (λ y, String.eqb (ident y) id) l = l.
Proof.
  induction l as [|y l IH]; simpl; [done|].
  intros [Hy Hl]%not_elem_of_cons.
  destruct (String.eqb_spec (ident y) id) as [?|_]; [congruence|].
  by rewrite IH.
Qed.
End UpsertMore.

(** A set built from a list has at most as many elements as the list. *)
Lemma size_list_to_set_le (l : list string) :
  (size (list_to_set l : gset string) ≤ length l)%nat.
Proof.
  induction l as [|x l IH]; [by rewrite list_to_set_nil, size_empty|].
  rewrite list_to_set_cons, size_union_alt, size_singleton. simpl.
  assert (size (list_to_set l ∖ {[x]} : gset string)
          ≤ size (list_to_set l : gset string))%nat
    by (apply subseteq_size; intros y Hy; apply elem_of_difference in Hy; tauto).
  lia.
Qed.

Lemma size_list_to_set_sub (l k : list string) :
  (∀ x, x ∈ l → x ∈ k) →
  (size (list_to_set l : gset string) ≤ length k)%nat.
Proof.
  intros Hsub. etrans; [|apply (size_list_to_set_le k)].
  apply subseteq_size. intros x. rewrite !elem_of_list_to_set. apply Hsub.
Qed.

(** The three outcomes of [run_scheduling]. *)
Lemma run_scheduling_cases s :
  (tourist_requests s = [] ∧ run_scheduling s = (no_tourists [], s))
  ∨ (tourist_requests s ≠ [] ∧ guide_offers s = []
     ∧ run_scheduling s = (no_guides [], s))
  ∨ (tourist_requests s ≠ [] ∧ guide_offers s ≠ []
     ∧ run_scheduling s =
         let built := _build_schedule (tourist_requests s) (guide_offers s) in
         (completed (length built) built (map proposal_of built),
          mkSchedulerState (tourist_requests s) (guide_offers s) built)).
Proof.
  unfold run_scheduling.
  destruct (tourist_requests s) as [|t ts]; [by left|].
  destruct (guide_offers s) as [|g gs]; [right; by left|].
  right. by right.
Qed.

Section StatusFacts.
Variable fromisoformat : string → result datetime.

(** In every state the tools lead to, the ledger speaks of registered
    identities only, and of no tourist twice. *)
Lemma reachable_ledger s : reachable fromisoformat s → ledger_registered s.
Proof.
  induction 1 as [|s id ws we prefs amount Hs [IHn IHr]
                   |s id cats ws we rate size Hs [IHn IHr]
                   |s Hs [IHn IHr]|s _ _].
  - split; [constructor|]. intros a Ha. by apply elem_of_nil in Ha.
  - destruct (fromisoformat ws) as [a|e1] eqn:Ea;
      [destruct (fromisoformat we) as [b|e2] eqn:Eb|].
    + rewrite (register_tourist_request_parsed _ _ _ _ _ _ _ a b) by done.
      split; [done|]. simpl. intros x Hx. destruct (IHr x Hx) as [Ht Hg].
      split; [|done]. by apply upsert_keeps_identities.
    + destruct (register_tourist_request_unparsed fromisoformat id ws we prefs amount s)
        as [e ->]; [right; by eexists | by split].
    + destruct (register_tourist_request_unparsed fromisoformat id ws we prefs amount s)
        as [e ->]; [left; by eexists | by split].
  - destruct (fromisoformat ws) as [a|e1] eqn:Ea;
      [destruct (fromisoformat we) as [b|e2] eqn:Eb|].
    + rewrite (register_guide_offer_parsed _ _ _ _ _ _ _ _ a b) by done.
      split; [done|]. simpl. intros x Hx. destruct (IHr x Hx) as [Ht Hg].
      split; [done|]. by apply upsert_keeps_identities.
    + destruct (register_guide_offer_unparsed fromisoformat id cats ws we rate size s)
        as [e ->]; [right; by eexists | by split].
    + destruct (register_guide_offer_unparsed fromisoformat id cats ws we rate size s)
        as [e ->]; [left; by eexists | by split].
  - apply reachable_unique in Hs as [Hut _].
    destruct (run_scheduling_cases s) as [[_ ->] | [(_ & _ & ->) | (_ & _ & ->)]];
      [by split | by split |].
    simpl. split.
    + by apply each_tourist_once_aux.
    + intros a Ha.
      pose proof (build_schedule_produced (tourist_requests s) (guide_offers s))
        as Hall.
      rewrite Forall_forall in Hall.
      destruct (Hall a Ha) as (t' & g' & ov & Ht' & Hg' & -> & _).
      simpl. split; apply list_elem_of_fmap; by eexists.
  - split; [constructor|]. intros a Ha. by apply elem_of_nil in Ha.
Qed.
End StatusFacts.

(** X4 (the status counts agree). In every state the tools lead to, the
    status reply has [pending_tourists = total_tourists - total_assignments]
    (each assignment is for a different tourist), neither
    [pending_tourists] nor [available_guides] is negative, and
    [available_guides] is at least [total_guides - total_assignments]. *)
Theorem status_counts_agree (fromisoformat : string → result datetime)
    (round_1 : Q → Q) s :
  reachable fromisoformat s →
  let r := get_schedule_status round_1 s in
  pending_tourists r = total_tourists r - total_assignments r
  ∧ 0 ≤ pending_tourists r
  ∧ 0 ≤ available_guides r
  ∧ total_guides r - total_assignments r ≤ available_guides r.
Proof.
  intros Hs. pose proof (reachable_ledger _ _ Hs) as [Hnd Hreg].
  cbv zeta. unfold get_schedule_status. simpl.
  rewrite (size_list_to_set (C:=gset string) _ Hnd), length_map.
  pose proof (size_list_to_set_sub (map asg_tourist_id (assignments s))
                (map tourist_id (tourist_requests s))) as Ht.
  pose proof (size_list_to_set_sub (map asg_guide_id (assignments s))
                (map guide_id (guide_offers s))) as Hg.
  pose proof (size_list_to_set_le (map asg_guide_id (assignments s))) as Hg'.
  rewrite (size_list_to_set (C:=gset string) _ Hnd) in Ht.
  rewrite !length_map in *.
  assert (length (assignments s) ≤ length (tourist_requests s))%nat.
  { apply Ht. intros x (a & -> & Ha)%list_elem_of_fmap. by apply Hreg. }
  assert (size (list_to_set (map asg_guide_id (assignments s)) : gset string)
          ≤ length (guide_offers s))%nat.
  { apply Hg. intros x (a & -> & Ha)%list_elem_of_fmap. by apply Hreg. }
  lia.
Qed.

Lemma status_counts_agree_witness :
  let r := get_schedule_status (λ q, q) (run_scheduling
             (register_guide_offer clock "g1" ["culture"] "2025-06-01T10:00:00"
                "2025-06-01T14:00:00" 50 5 one_tourist).2).2 in
  pending_tourists r = total_tourists r - total_assignments r
  ∧ 0 ≤ pending_tourists r
  ∧ 0 ≤ available_guides r
  ∧ total_guides r - total_assignments r ≤ available_guides r.
Proof.
  apply (status_counts_agree clock).
  apply reachable_run, reachable_guide, reachable_tourist, reachable_initial.
Defined.

(** X5 (outcome of a guide registration). A call of
    [register_guide_offer] with a list of category labels, an hourly rate
    that is not negative and a group size of at least one, whose two
    timestamps parse, drops the offer of the same identity, if any, appends
    the new one, whether its window starts before it ends or not, and
    reports the size of the guide registry after the insert as
    [total_guides]. A call with a timestamp that does not parse returns an
    error reply and leaves the state as it was. Whatever the call, the
    tourist registry and the ledger are as before. *)
Theorem register_guide_offer_outcome
    (fromisoformat : string → result datetime) id cats ws we rate size s :
  let r := register_guide_offer fromisoformat id cats ws we rate size s in
  tourist_requests r.2 = tourist_requests s
  ∧ assignments r.2 = assignments s
  ∧ (∀ a b,
       fromisoformat ws = Ok a → fromisoformat we = Ok b →
       (0 <= rate)%Q → 1 ≤ size →
       guide_offers r.2 =
         remove_first_with (λ g, String.eqb (guide_id g) id) (guide_offers s)
         ++ [mkGuideOffer id cats (mkWindow a b) rate size]
       ∧ r.1 = registered_guide id (length (guide_offers r.2)))
  ∧ ((∃ e, fromisoformat ws = Raise e) ∨ (∃ e, fromisoformat we = Raise e) →
     status r.1 = "error" ∧ r.2 = s).
Proof.
  cbv zeta.
  assert (Hparsed : ∀ a b, fromisoformat ws = Ok a → fromisoformat we = Ok b →
            register_guide_offer fromisoformat id cats ws we rate size s =
              let offers :=
                remove_first_with (λ g, String.eqb (guide_id g) id) (guide_offers s)
                ++ [mkGuideOffer id cats (mkWindow a b) rate size] in
              (registered_guide id (length offers),
               mkSchedulerState (tourist_requests s) offers (assignments s)))
    by (intros a b; apply register_guide_offer_parsed).
  pose proof (register_guide_offer_unparsed fromisoformat id cats ws we rate size s)
    as Hunparsed.
  destruct (fromisoformat ws) as [a|e1] eqn:Ea;
    [destruct (fromisoformat we) as [b|e2] eqn:Eb|].
  - rewrite (Hparsed a b eq_refl eq_refl). simpl.
    split; [done|]. split; [done|]. split.
    + by intros a' b' [= <-] [= <-] _ _.
    + by intros [[e ?]|[e ?]].
  - destruct Hunparsed as [e ->]; [right; by eexists|]. simpl.
    split; [done|]. split; [done|]. split; [by intros a' b' _ ?|done].
  - destruct Hunparsed as [e ->]; [left; by eexists|]. simpl.
    split; [done|]. split; [done|]. split; [by intros a' b' ?|done].
Qed.

Lemma register_guide_offer_outcome_witness :
  let r := register_guide_offer clock "g1" ["culture"; "history"; "food"]
             "2025-06-01T10:00:00" "2025-06-01T14:00:00" 50 5 one_tourist in
  guide_offers r.2 = [g1] ∧ r.1 = registered_guide "g1" 1.
Proof.
  cbv zeta.
  apply (proj1 (proj2 (proj2
           (register_guide_offer_outcome clock "g1" ["culture"; "history"; "food"]
              "2025-06-01T10:00:00" "2025-06-01T14:00:00" 50 5 one_tourist)))
           (hour 10) (hour 14)).
  - reflexivity.
  - reflexivity.
  - by vm_compute.
  - lia.
Defined.

(** X6 (a guide without places takes no tourist). When the counter a run
    starts with for a guide identity, the group size of the last offer under
    that identity, is zero or less, the run makes no assignment to that
    identity. With one offer per identity, as in a registry, a guide whose
    own group size is zero or less is the guide of no assignment. *)
Theorem guide_without_places_unused tourists guides :
  (∀ gid c,
     guide_capacity_of guides !! gid = Some c → c ≤ 0 →
     guide_load gid (_build_schedule tourists guides) = 0)
  ∧ (∀ g a,
       NoDup (map guide_id guides) → g ∈ guides → max_group_size g ≤ 0 →
       a ∈ _build_schedule tourists guides → asg_guide_id a ≠ guide_id g).
Proof.
  assert (Hnone : ∀ gid c,
            guide_capacity_of guides !! gid = Some c → c ≤ 0 →
            guide_load gid (_build_schedule tourists guides) = 0).
  { intros gid c Hc Hle.
    pose proof (build_schedule_load tourists guides gid) as H.
    rewrite (lookup_total_correct _ _ _ Hc) in H.
    unfold guide_load in *. lia. }
  split; [done|].
  intros g a Hnd Hg Hsize Ha Heq.
  pose proof (Hnone _ _ (guide_capacity_of_unique guides g Hnd Hg) Hsize) as Hload.
  unfold guide_load in Hload.
  assert (a ∈ filter (λ a, asg_guide_id a = guide_id g)
                     (_build_schedule tourists guides)) as Hin
    by by apply list_elem_of_filter.
  destruct (filter _ _); [by apply elem_of_nil in Hin | done].
Qed.

Lemma guide_without_places_unused_witness :
  let g0 := mkGuideOffer "g0" ["culture"] (mkWindow (hour 10) (hour 14)) 50 0 in
  guide_load "g0" (_build_schedule [t1; t2] [g0; g2]) = 0.
Proof.
  cbv zeta.
  apply (proj1 (guide_without_places_unused [t1; t2]
                  [mkGuideOffer "g0" ["culture"] (mkWindow (hour 10) (hour 14)) 50 0;
                   g2]) "g0" 0).
  - reflexivity.
  - lia.
Defined.

Lemma upsert_twice {A} (ident : A → string) id (l : list A) x :
  ident x = id → NoDup (map ident l) →
  remove_first_with (λ y, String.eqb (ident y) id)
    (remove_first_with (λ y, String.eqb (ident y) id) l ++ [x])
  = remove_first_with (λ y, String.eqb (ident y) id) l.
Proof.
  intros Hx Hnd.
  destruct (remove_first_with_unique ident id l Hnd) as [_ Hid].
  rewrite (remove_first_with_split ident id _ x []) by done.
  by rewrite app_nil_r.
Qed.

(** X7 (registering twice is registering once). In every state the tools
    lead to, a registration call repeated with the same arguments returns
    the same reply as the first and leaves the state the first one left; for
    tourists and for guides. *)
Theorem registration_idempotent (fromisoformat : string → result datetime) s :
  reachable fromisoformat s →
  (∀ id ws we prefs amount,
     let once := register_tourist_request fromisoformat id ws we prefs amount s in
     register_tourist_request fromisoformat id ws we prefs amount once.2 = once)
  ∧ (∀ id cats ws we rate size,
       let once := register_guide_offer fromisoformat id cats ws we rate size s in
       register_guide_offer fromisoformat id cats ws we rate size once.2 = once).
Proof.
  intros [Ht Hg]%reachable_unique. split.
  - intros id ws we prefs amount. cbv zeta.
    destruct (fromisoformat ws) as [a|e1] eqn:Ea;
      [destruct (fromisoformat we) as [b|e2] eqn:Eb|].
    + rewrite !(register_tourist_request_parsed _ _ _ _ _ _ _ a b) by done.
      simpl. by rewrite (upsert_twice tourist_id).
    + destruct (register_tourist_request_unparsed fromisoformat id ws we prefs amount s)
        as [e He]; [right; by eexists|]. by rewrite He.
    + destruct (register_tourist_request_unparsed fromisoformat id ws we prefs amount s)
        as [e He]; [left; by eexists|]. by rewrite He.
  - intros id cats ws we rate size. cbv zeta.
    destruct (fromisoformat ws) as [a|e1] eqn:Ea;
      [destruct (fromisoformat we) as [b|e2] eqn:Eb|].
    + rewrite !(register_guide_offer_parsed _ _ _ _ _ _ _ _ a b) by done.
      simpl. by rewrite (upsert_twice guide_id).
    + destruct (register_guide_offer_unparsed fromisoformat id cats ws we rate size s)
        as [e He]; [right; by eexists|]. by rewrite He.
    + destruct (register_guide_offer_unparsed fromisoformat id cats ws we rate size s)
        as [e He]; [left; by eexists|]. by rewrite He.
Qed.

Lemma registration_idempotent_witness :
  let once := register_tourist_request clock "t1" "2025-06-01T10:00:00"
                "2025-06-01T14:00:00" ["food"] 50 one_tourist in
  register_tourist_request clock "t1" "2025-06-01T10:00:00"
    "2025-06-01T14:00:00" ["food"] 50 once.2 = once.
Proof.
  apply (proj1 (registration_idempotent clock one_tourist
                  (reachable_tourist clock _ _ _ _ _ _ (reachable_initial clock)))).
Defined.

(** X8 (a registration leaves the other identities alone). Whatever the
    outcome of a registration call, the records of the identities other than
    the one registered are the same as before, in the same order; for
    tourists and for guides. *)
Theorem registration_keeps_other_records
    (fromisoformat : string → result datetime) s :
  (∀ id ws we prefs amount,
     filter (λ t, tourist_id t ≠ id)
       (tourist_requests
          (register_tourist_request fromisoformat id ws we prefs amount s).2)
     = filter (λ t, tourist_id t ≠ id) (tourist_requests s))
  ∧ (∀ id cats ws we rate size,
       filter (λ g, guide_id g ≠ id)
         (guide_offers
            (register_guide_offer fromisoformat id cats ws we rate size s).2)
       = filter (λ g, guide_id g ≠ id) (guide_offers s)).
Proof.
  split.
  - intros id ws we prefs amount.
    destruct (fromisoformat ws) as [a|e1] eqn:Ea;
      [destruct (fromisoformat we) as [b|e2] eqn:Eb|].
    + rewrite (register_tourist_request_parsed _ _ _ _ _ _ _ a b) by done.
      simpl. by apply (upsert_keeps_others tourist_id).
    + destruct (register_tourist_request_unparsed fromisoformat id ws we prefs amount s)
        as [e ->]; [right; by eexists | done].
    + destruct (register_tourist_request_unparsed fromisoformat id ws we prefs amount s)
        as [e ->]; [left; by eexists | done].
  - intros id cats ws we rate size.
    destruct (fromisoformat ws) as [a|e1] eqn:Ea;
      [destruct (fromisoformat we) as [b|e2] eqn:Eb|].
    + rewrite (register_guide_offer_parsed _ _ _ _ _ _ _ _ a b) by done.
      simpl. by apply (upsert_keeps_others guide_id).
    + destruct (register_guide_offer_unparsed fromisoformat id cats ws we rate size s)
        as [e ->]; [right; by eexists | done].
    + destruct (register_guide_offer_unparsed fromisoformat id cats ws we rate size s)
        as [e ->]; [left; by eexists | done].
Qed.

(** X9 (a new identity joins at the end). A registration whose timestamps
    parse, for an identity that is not in the registry, removes nothing: the
    registry is the old one followed by the new record, and the position
    reported is the old size plus one; for tourists and for guides. *)
Theorem registration_of_new_identity
    (fromisoformat : string → result datetime) s ws we a b :
  fromisoformat ws = Ok a → fromisoformat we = Ok b →
  (∀ id prefs amount,
     id ∉ map tourist_id (tourist_requests s) →
     register_tourist_request fromisoformat id ws we prefs amount s
     = (registered_tourist id (S (length (tourist_requests s))),
        mkSchedulerState
          (tourist_requests s ++ [mkTouristRequest id [mkWindow a b] prefs amount])
          (guide_offers s) (assignments s)))
  ∧ (∀ id cats rate size,
       id ∉ map guide_id (guide_offers s) →
       register_guide_offer fromisoformat id cats ws we rate size s
       = (registered_guide id (S (length (guide_offers s))),
          mkSchedulerState (tourist_requests s)
            (guide_offers s ++ [mkGuideOffer id cats (mkWindow a b) rate size])
            (assignments s))).
Proof.
  intros Ha Hb. split.
  - intros id prefs amount Hnew.
    rewrite (register_tourist_request_parsed _ _ _ _ _ _ _ a b) by done.
    cbv zeta. rewrite (upsert_new tourist_id id _ Hnew), length_app. simpl.
    by rewrite Nat.add_1_r.
  - intros id cats rate size Hnew.
    rewrite (register_guide_offer_parsed _ _ _ _ _ _ _ _ a b) by done.
    cbv zeta. rewrite (upsert_new guide_id id _ Hnew), length_app. simpl.
    by rewrite Nat.add_1_r.
Qed.

Lemma registration_of_new_identity_witness :
  register_tourist_request clock "t2" "2025-06-01T08:00:00" "2025-06-01T12:00:00"
    ["food"] 80 one_tourist
  = (registered_tourist "t2" 2,
     mkSchedulerState
       (tourist_requests one_tourist
        ++ [mkTouristRequest "t2" [mkWindow (hour 8) (hour 12)] ["food"] 80])
       [] []).
Proof.
  apply (proj1 (registration_of_new_identity clock one_tourist
                  "2025-06-01T08:00:00" "2025-06-01T12:00:00" (hour 8) (hour 12)
                  eq_refl eq_refl)).
  apply (bool_decide_unpack _). by vm_compute.
Defined.

(** A reset forgets everything. After [clear_scheduler_state], from
    any state, the status reply counts no tourist, no guide and no
    assignment, nothing is pending or available, and a run replies
    [no_tourists] with an empty list; the state is the one the process
    starts in. *)
Lemma clear_forgets_everything (round_1 : Q → Q) s :
  let s' := (clear_scheduler_state s).2 in
  let r := get_schedule_status round_1 s' in
  s' = initial_state
  ∧ total_tourists r = 0 ∧ total_guides r = 0 ∧ total_assignments r = 0
  ∧ pending_tourists r = 0 ∧ available_guides r = 0
  ∧ run_scheduling s' = (no_tourists [], s').
Proof. cbv zeta. repeat split. Qed.

(** X10 (the reply of a completed run). When [run_scheduling] replies
    with the status [completed], both registries hold a record; the reply
    carries the list [_build_schedule] returns for the registries, its
    length as [num_assignments], which is at most the number of registered
    tourists, and one proposal per assignment, in the same order, each
    holding that assignment alone under its tourist's identity with the
    status [proposed]. *)
Theorem run_scheduling_reply s n l ps :
  (run_scheduling s).1 = completed n l ps →
  tourist_requests s ≠ [] ∧ guide_offers s ≠ []
  ∧ l = _build_schedule (tourist_requests s) (guide_offers s)
  ∧ n = length l
  ∧ (n ≤ length (tourist_requests s))%nat
  ∧ Forall2 (λ a p, prop_tourist_id p = asg_tourist_id a
                    ∧ prop_assignments p = [a]
                    ∧ prop_status p = "proposed") l ps.
Proof.
  destruct (run_scheduling_cases s)
    as [[Ht ->] | [(Ht & Hg & ->) | (Ht & Hg & ->)]]; simpl; [done..|].
  intros [= <- <- <-]. repeat split; try done.
  - etrans; [apply build_schedule_length|].
    apply sublist_length, sublist_filter.
  - apply Forall2_fmap_r, Forall_Forall2_diag, Forall_forall. by intros a _.
Qed.

Lemma run_scheduling_reply_witness :
  let s := mkSchedulerState [t1; t2] [g2] [] in
  let l := _build_schedule [t1; t2] [g2] in
  tourist_requests s ≠ [] ∧ guide_offers s ≠ []
  ∧ l = _build_schedule (tourist_requests s) (guide_offers s)
  ∧ length l = length l
  ∧ (length l ≤ length (tourist_requests s))%nat
  ∧ Forall2 (λ a p, prop_tourist_id p = asg_tourist_id a
                    ∧ prop_assignments p = [a]
                    ∧ prop_status p = "proposed") l (map proposal_of l).
Proof.
  cbv zeta.
  apply (run_scheduling_reply (mkSchedulerState [t1; t2] [g2] [])).
  reflexivity.
Defined.

(** * Properties of the model factory *)

Lemma prefix_app p s : String.prefix p (p +:+ s) = true.
Proof.
  induction p as [|c p IH]; simpl; [by destruct s|].
  destruct (Ascii.ascii_dec c c); [done|congruence].
Qed.

Lemma prefix_split p : ∀ s,
  String.prefix p s = true → s = p +:+ drop_chars (String.length p) s.
Proof.
  induction p as [|c p IH]; intros s; [done|].
  destruct s as [|d s]; simpl; [done|].
  destruct (Ascii.ascii_dec c d) as [->|]; [|done].
  intros H. rewrite (IH s H) at 1. reflexivity.
Qed.

(** Replacing a prefix: the rest of the string is kept as it is. *)
Lemma replace_first_prefix old new s :
  String.prefix old s = true →
  replace_first old new s = new +:+ drop_chars (String.length old) s.
Proof. intros H. destruct s; cbn [replace_first]; by rewrite H. Qed.

(** The three cases of the name of an Ollama model. *)
Lemma ollama_model_name_cases name :
  ∃ rest,
    ollama_model_name name = "ollama_chat/" +:+ rest
    ∧ ((name = rest ∧ String.prefix "ollama/" name = false
        ∧ String.prefix "ollama_chat/" name = false)
       ∨ name = "ollama/" +:+ rest
       ∨ name = "ollama_chat/" +:+ rest).
Proof.
  unfold ollama_model_name.
  destruct (String.prefix "ollama_chat/" name) eqn:Echat.
  - pose proof (prefix_split "ollama_chat/" name Echat) as Hn.
    assert (String.prefix "ollama/" name = false) as ->
      by (rewrite Hn; reflexivity).
    exists (drop_chars 12 name). cbn [negb andb]. split; [done | by right; right].
  - destruct (String.prefix "ollama/" name) eqn:Eo; simpl.
    + exists (drop_chars 7 name). split.
      * by rewrite replace_first_prefix.
      * right. left. by apply (prefix_split "ollama/").
    + exists name. split; [done|]. by left.
Qed.

(** X11 (an Ollama model is always a chat model). When the provider read
    from [MODEL_PROVIDER] is ollama, in any letter case, the model name
    given to [LiteLlm] starts with [ollama_chat/]: a configured name without
    such a prefix gets it, a name starting with [ollama/] has that prefix
    exchanged, and a name starting with [ollama_chat/] is kept; what follows
    the prefix is unchanged. No API key is passed and the base address is
    always given. *)
Theorem ollama_model_is_chat env agent_type :
  lower (getenv_or env "MODEL_PROVIDER" "azure") = "ollama" →
  let name :=
    or_else (or_option (getenv env (upper agent_type +:+ "_MODEL"))
                       (getenv env "MODEL_NAME"))
            (getenv_or env "OLLAMA_MODEL" "qwen3:latest") in
  let llm := create_llm_model env agent_type in
  String.prefix "ollama_chat/" (model llm) = true
  ∧ api_key llm = Absent
  ∧ (∃ base, api_base llm = Given (Some base))
  ∧ ∃ rest,
      model llm = "ollama_chat/" +:+ rest
      ∧ ((name = rest ∧ String.prefix "ollama/" name = false
          ∧ String.prefix "ollama_chat/" name = false)
         ∨ name = "ollama/" +:+ rest
         ∨ name = "ollama_chat/" +:+ rest).
Proof.
  intros Hp. cbv zeta. unfold create_llm_model. rewrite Hp.
  rewrite bool_decide_eq_false_2; [|by apply (bool_decide_unpack _)].
  rewrite bool_decide_eq_true_2 by done. simpl.
  match goal with |- context [ollama_model_name ?n] =>
    destruct (ollama_model_name_cases n) as (rest & Hm & Hcases)
  end.
  rewrite Hm. split; [apply (prefix_app "ollama_chat/")|].
  split; [done|]. split; [by eexists|]. by exists rest.
Qed.

Lemma ollama_model_is_chat_witness :
  String.prefix "ollama_chat/" (model (create_llm_model ollama_env "guide")) = true.
Proof.
  apply (ollama_model_is_chat ollama_env "guide").
  by vm_compute.
Defined.

(** X12 (which model name is used). For every provider but ollama, the
    model name given to [LiteLlm] is the value of the agent's own variable
    ([SCHEDULER_MODEL], [GUIDE_MODEL], ...) when that is set and not empty,
    whatever [MODEL_NAME] holds; when the agent's variable is unset or empty,
    it is the value of [MODEL_NAME], if that is set and not empty. *)
Theorem model_name_precedence env agent_type v :
  lower (getenv_or env "MODEL_PROVIDER" "azure") ≠ "ollama" →
  v ≠ "" →
  (getenv env (upper agent_type +:+ "_MODEL") = Some v →
   model (create_llm_model env agent_type) = v)
  ∧ ((getenv env (upper agent_type +:+ "_MODEL") = None
      ∨ getenv env (upper agent_type +:+ "_MODEL") = Some "") →
     getenv env "MODEL_NAME" = Some v →
     model (create_llm_model env agent_type) = v).
Proof.
  intros Hp Hv. destruct v as [|c rest]; [done|].
  unfold create_llm_model.
  rewrite (bool_decide_eq_false_2 (_ = "ollama")) by done.
  split.
  - intros ->. by repeat case_bool_decide.
  - intros [-> | ->] ->; by repeat case_bool_decide.
Qed.

Lemma model_name_precedence_witness :
  model (create_llm_model gemini_env "scheduler") = "gemini/pro".
Proof.
  apply (proj1 (model_name_precedence gemini_env "scheduler" "gemini/pro"
                  ltac:(by vm_compute) ltac:(done))).
  by vm_compute.
Defined.

(** ** Scenarios of the model factory *)

Example scenario_ollama :
  create_llm_model ollama_env "guide"
  = mkLiteLlm "ollama_chat/llama3" Absent
      (Given (Some "http://host.docker.internal:11434")) Absent.
Proof. by vm_compute. Qed.

(** An empty variable counts as unset: the guide falls back on
    [MODEL_NAME]. *)
Example scenario_empty_variable :
  model (create_llm_model gemini_env "guide") = "gemini/flash".
Proof. by vm_compute. Qed.

Example scenario_no_environment :
  create_llm_model ∅ "scheduler"
  = mkLiteLlm "azure/gpt-4o" (Given None) (Given None) (Given (Some "2024-02-01")).
Proof. by vm_compute. Qed.
